(** * Closest-jet matching of AliAnalysisTaskJetSpectrum and the HF MC particle filter

    Shallow embedding of
    - [AliAnalysisTaskJetSpectrum::GetClosestJets] (src/unnamed/part_000), and
    - [AliHFAODMCParticleContainer::AcceptMCParticle(Int_t)] and
      [IsSpecialPDGDaughter]
      (src/PWGJE/FlavourJetTasks/AliHFAODMCParticleContainer.cxx).

    [Double_t] values are Rocq primitive binary64 floats; a [Float_t]
    variable holds a binary32 value, which we represent by the binary64 value
    it widens to (the conversion float -> double is exact), obtained from a
    double by [to_single] (round to nearest even, binary32 format). *)

From Stdlib Require Import ZArith Floats.
From stdpp Require Import base list.

#[local] Set Warnings "-inexact-float".

Open Scope Z_scope.

(** Assignment of a [Double_t] to a [Float_t] (round to nearest binary32),
    read back as a [Double_t]. *)
Definition to_single (x : float) : float :=
  match Prim2SF x with
  | S754_finite s m e =>
      match SpecFloat.binary_normalize 24 128 (SpecFloat.cond_Zopp s (Zpos m)) e s with
      | S754_finite s' m' e' =>
          SF2Prim (SpecFloat.binary_normalize 53 1024
                     (SpecFloat.cond_Zopp s' (Zpos m')) e' s')
      | f => SF2Prim f
      end
  | _ => x
  end.

Module ClosestJets.

(** [const Float_t maxDist = 1.4;] *)
Definition maxDist : float := to_single 1.4.

(** One iteration of an inner search loop:
    [if(dR<dist){ idx = i; dist = dR; }] with [Float_t dist].
    The pair holds [(dist, idx)]. *)
Definition scan_step (dR : nat -> float) (p : float * Z) (i : nat) : float * Z :=
  let '(dist, idx) := p in
  if PrimFloat.ltb (dR i) dist then (to_single (dR i), Z.of_nat i) else p.

(** [iFlag[i][j] += v] on the local flag matrix. *)
Definition flag_add (fl : nat -> nat -> Z) (i j : nat) (v : Z) : nat -> nat -> Z :=
  fun i' j' => if (i' =? i)%nat && (j' =? j)%nat then fl i' j' + v else fl i' j'.

(** The trace of [DeltaR] evaluations: the pairs [(ig, ir)] in call order. *)
Definition trace := list (nat * nat).

(** One outer iteration [ig] of the forward pass ("find the closest
    distance"). [d ig ir] is [genJets[ig].DeltaR(&recJets[ir])]. The slot
    [iRecIndex[ig]] is the only element written by the inner loop; it is
    held in the pair while the inner loop runs and stored back afterwards. *)
Definition fwd_body (d : nat -> nat -> float) (nR : nat)
    (s : list Z * (nat -> nat -> Z) * trace) (ig : nat)
    : list Z * (nat -> nat -> Z) * trace :=
  let '(iRec, fl, tr) := s in
  let '((_, best), tr') :=
    fold_left (fun (st : (float * Z) * trace) ir =>
                 let '(p, t) := st in (scan_step (d ig) p ir, t ++ [(ig, ir)]))
              (seq 0 nR) ((maxDist, iRec !!! ig), tr) in
  let iRec' := <[ig := best]> iRec in
  if 0 <=? iRec' !!! ig
  then (iRec', flag_add fl ig (Z.to_nat (iRec' !!! ig)) 1, tr')
  else (iRec', fl, tr').

(** One outer iteration [ir] of the backward pass ("other way around"). *)
Definition bwd_body (d : nat -> nat -> float) (nG : nat)
    (s : list Z * (nat -> nat -> Z) * trace) (ir : nat)
    : list Z * (nat -> nat -> Z) * trace :=
  let '(iGen, fl, tr) := s in
  let '((_, best), tr') :=
    fold_left (fun (st : (float * Z) * trace) ig =>
                 let '(p, t) := st in (scan_step (fun g => d g ir) p ig, t ++ [(ig, ir)]))
              (seq 0 nG) ((maxDist, iGen !!! ir), tr) in
  let iGen' := <[ir := best]> iGen in
  if 0 <=? iGen' !!! ir
  then (iGen', flag_add fl (Z.to_nat (iGen' !!! ir)) ir 2, tr')
  else (iGen', fl, tr').

(** One cell of the check for "true" correlations. The pair holds
    [(iGenIndex, iRecIndex)]. *)
Definition cons_cell (fl : nat -> nat -> Z) (ig : nat) (s : list Z * list Z) (ir : nat)
    : list Z * list Z :=
  let '(iGen, iRec) := s in
  if fl ig ir =? 3
  then (<[ir := Z.of_nat ig]> iGen, <[ig := Z.of_nat ir]> iRec)
  else (<[ir := -1]> iGen, <[ig := -1]> iRec).

Definition cons_row (fl : nat -> nat -> Z) (nR : nat) (s : list Z * list Z) (ig : nat)
    : list Z * list Z :=
  fold_left (cons_cell fl ig) (seq 0 nR) s.

(** Forward choice of generated jet [ig]: the index kept by the inner loop
    started from the reset slot [-1]. *)
Definition fwd_choice (d : nat -> nat -> float) (nR ig : nat) : Z :=
  snd (fold_left (scan_step (d ig)) (seq 0 nR) (maxDist, -1)).

(** Backward choice of reconstructed jet [ir]. *)
Definition bwd_choice (d : nat -> nat -> float) (nG ir : nat) : Z :=
  snd (fold_left (scan_step (fun g => d g ir)) (seq 0 nG) (maxDist, -1)).

Section Matching.

(** [AliAODJet] and its [DeltaR] belong to the AOD library, outside this
    repository. [kMaxJets] is the capacity of the jet and index arrays. *)
Variable AliAODJet : Type.
Variable DeltaR : AliAODJet -> AliAODJet -> float.
Variable kMaxJets : nat.

(** The caller-visible state of a call: the two jet arrays, the two counts
    (passed by reference) and the two output index arrays. *)
Record Mem := mkMem {
  genJets : nat -> AliAODJet;
  nGenJets : Z;
  recJets : nat -> AliAODJet;
  nRecJets : Z;
  iGenIndex : list Z;
  iRecIndex : list Z
}.

(** [for(int i = 0;i < kMaxJets;++i){ a[i] = -1; ... }] *)
Definition reset (a : list Z) : list Z :=
  fold_left (fun a i => <[i := -1]> a) (seq 0 kMaxJets) a.

(** Zero-initialised flag matrix. *)
Definition flag0 : nat -> nat -> Z := fun _ _ => 0.

Definition dist_of (m : Mem) : nat -> nat -> float :=
  fun ig ir => DeltaR (genJets m ig) (recJets m ir).

(** The forward and backward passes: [(iGenIndex, iRecIndex, iFlag, trace)]
    just before the consensus loop. *)
Definition passes (m : Mem) : list Z * list Z * (nat -> nat -> Z) * trace :=
  let nG := Z.to_nat (nGenJets m) in
  let nR := Z.to_nat (nRecJets m) in
  let d := dist_of m in
  let '(iRec1, fl1, tr1) :=
    fold_left (fwd_body d nR) (seq 0 nG) (reset (iRecIndex m), flag0, []) in
  let '(iGen2, fl2, tr2) :=
    fold_left (bwd_body d nG) (seq 0 nR) (reset (iGenIndex m), fl1, tr1) in
  (iGen2, iRec1, fl2, tr2).

(** [GetClosestJets]: the final state, the flag matrix and the trace of
    [DeltaR] evaluations. *)
Definition GetClosestJets (m : Mem) : Mem * (nat -> nat -> Z) * trace :=
  let iGen0 := reset (iGenIndex m) in
  let iRec0 := reset (iRecIndex m) in
  let out iGen iRec :=
    mkMem (genJets m) (nGenJets m) (recJets m) (nRecJets m) iGen iRec in
  if nRecJets m =? 0 then (out iGen0 iRec0, flag0, []) else
  if nGenJets m =? 0 then (out iGen0 iRec0, flag0, []) else
  let '(iGen2, iRec1, fl, tr) := passes m in
  let '(iGen3, iRec3) :=
    fold_left (cons_row fl (Z.to_nat (nRecJets m))) (seq 0 (Z.to_nat (nGenJets m)))
              (iGen2, iRec1) in
  (out iGen3 iRec3, fl, tr).

(** A call as the task makes it: index arrays of capacity [kMaxJets] and
    counts clamped to [kMaxJets] ([TMath::Min(n,kMaxJets)]). *)
Definition well_formed (m : Mem) : Prop :=
  length (iGenIndex m) = kMaxJets /\ length (iRecIndex m) = kMaxJets /\
  (Z.to_nat (nGenJets m) <= kMaxJets)%nat /\ (Z.to_nat (nRecJets m) <= kMaxJets)%nat /\
  0 <= nGenJets m /\ 0 <= nRecJets m.

End Matching.

Arguments mkMem {AliAODJet}.
Arguments genJets {AliAODJet}.
Arguments nGenJets {AliAODJet}.
Arguments recJets {AliAODJet}.
Arguments nRecJets {AliAODJet}.
Arguments iGenIndex {AliAODJet}.
Arguments iRecIndex {AliAODJet}.
Arguments well_formed {AliAODJet}.

End ClosestJets.

(** Jets with the kinematics the matching reads, and an angular distance
    following the spec: Euclidean combination of the pseudorapidity
    difference and the azimuthal difference, the latter wrapped into
    [0, pi]. Used to build concrete inputs. *)
Module Kinematics.

Record Jet := mkJet { Pt : float; Eta : float; Phi : float }.

Definition pi : float := 0x1.921fb54442d18p+1%float.

Definition DeltaR (a b : Jet) : float :=
  let dPhi := PrimFloat.abs (PrimFloat.sub (Phi a) (Phi b)) in
  let dPhi := if PrimFloat.ltb pi dPhi then PrimFloat.sub (PrimFloat.mul 2 pi) dPhi else dPhi in
  let dEta := PrimFloat.sub (Eta a) (Eta b) in
  PrimFloat.sqrt (PrimFloat.add (PrimFloat.mul dPhi dPhi) (PrimFloat.mul dEta dEta)).

Definition jet0 : Jet := mkJet 0 0 0.

#[global] Instance Jet_inhabited : Inhabited Jet := populate jet0.

(** A C array of jets, filled from a list. *)
Definition jets (l : list Jet) : nat -> Jet := fun i => nth i l jet0.

End Kinematics.

(** Concrete calls, with [kMaxJets = 4] and stale contents in the output
    arrays. *)
Module Scenarios.
Import ClosestJets Kinematics.

Definition cap : nat := 4.

Definition call (gens recs : list Jet) : Mem Jet :=
  mkMem (jets gens) (Z.of_nat (length gens)) (jets recs) (Z.of_nat (length recs))
        [7; 7; 7; 7] [5; 5; 5; 5].

Definition run (m : Mem Jet) := GetClosestJets Jet DeltaR cap m.

(** Two generated jets, one reconstructed jet (the spec's first scenario). *)
Definition two_gen_one_rec : Mem Jet :=
  call [mkJet 20 0 0; mkJet 15 0.5 0.5] [mkJet 19.5 0.02 0.01].

(** Crossed nearest neighbours G0 -> R1, G1 -> R0, neither reciprocated,
    with a third generated jet G2 that is mutually nearest to R0
    (all at phi = 0, along eta). *)
Definition crossed_with_third : Mem Jet :=
  call [mkJet 20 1.7 0; mkJet 20 (-0.5) 0; mkJet 20 0.4 0]
       [mkJet 20 0 0; mkJet 20 1 0].

(** One generated jet and two reconstructed jets: the second strictly
    farther than the first by one ulp. *)
Definition farther_second : Mem Jet :=
  call [mkJet 20 0 0]
       [mkJet 20 0.1 0; mkJet 20 (PrimFloat.opp (PrimFloat.next_up 0.1)) 0].

(** One generated jet and two reconstructed jets at equal distance. *)
Definition tied_pair : Mem Jet :=
  call [mkJet 20 0 0] [mkJet 20 0.1 0; mkJet 20 (-0.1) 0].

(** One reconstructed jet at a distance between the binary32 and the
    binary64 values of 1.4. *)
Definition just_below_threshold : Mem Jet :=
  call [mkJet 20 0 0] [mkJet 20 1.3999999999 0].

(** An empty generated sequence. *)
Definition no_gen : Mem Jet := call [] [mkJet 20 0 0; mkJet 20 1 0].

(** The first scenario with other stale contents in the output arrays. *)
Definition two_gen_one_rec_restaled : Mem Jet :=
  mkMem (jets [mkJet 20 0 0; mkJet 15 0.5 0.5]) 2 (jets [mkJet 19.5 0.02 0.01]) 1
        [0; 1; 2; 3] [-8; 0; 9; 1].

End Scenarios.

(** The part of [AliAnalysisTaskJetSpectrum::UserExec] around the call:
    copying the jets of an AOD branch into the fixed-size arrays, and
    relating the jets and filling the per-jet histograms. *)
Module JetSpectrumExec.
Import ClosestJets.

Section Exec.

Variable AliAODJet : Type.
Variable DeltaR : AliAODJet -> AliAODJet -> float.
Variable kMaxJets : nat.
(** Accessors of [AliAODJet] (AOD library). *)
Variables Pt E Eta Phi : AliAODJet -> float.

(** [TMath::Pi()] *)
Definition TMath_Pi : float := 0x1.921fb54442d18p+1%float.

(** One iteration of
    [for(int ir = 0;ir < n;++ir){ AliAODJet *tmp = dynamic_cast<AliAODJet*>(arr->At(ir));
       if(!tmp)continue; jets[ir] = *tmp; }].
    [slots !! ir] is what [dynamic_cast<AliAODJet*>(arr->At(ir))] yields:
    [Some (Some j)] a jet, [Some None] a null or non-jet entry; past the end
    of the array [At] returns null. [jets] is the C array [AliAODJet[kMaxJets]];
    a write past its end is undefined behaviour, [None]. *)
Definition copy_step (slots : list (option AliAODJet))
    (acc : option (list AliAODJet)) (ir : nat) : option (list AliAODJet) :=
  match acc with
  | None => None
  | Some jets =>
      match mjoin (slots !! ir) with
      | None => Some jets
      | Some j => if (ir <? length jets)%nat then Some (<[ir := j]> jets) else None
      end
  end.

(** The copy loop with [n = arr->GetEntries()]. *)
Definition copy_jets (slots : list (option AliAODJet)) (n : Z) (jets : list AliAODJet)
    : option (list AliAODJet) :=
  fold_left (copy_step slots) (seq 0 (Z.to_nat n)) (Some jets).

(** The histograms filled per jet slot. *)
Inductive Hist :=
  | fh1E | fh1PtRecIn | fh3RecEtaPhiPt | fh1PtRecOut | fh2PtFGen
  | fh3PtRecGenHard | fh3PtRecGenHard_NoW | fh1PtGenIn | fh1PtGenOut.

#[global] Instance Hist_eq_dec : EqDecision Hist.
Proof. solve_decision. Defined.

(** [h[slot]->Fill(values..., weight)] *)
Record Fill := mkFill { hist : Hist; slot : nat; values : list float; weight : float }.

(** Body of the loop over reconstructed jets. *)
Definition rec_fills (genJets : nat -> AliAODJet) (nGenJets : Z) (iGenIndex : list Z)
    (recJets : nat -> AliAODJet) (eventW ptHard : float) (ir : nat) : list Fill :=
  let ptRec := Pt (recJets ir) in
  let phiRec := Phi (recJets ir) in
  let phiRec := if PrimFloat.ltb phiRec 0 then PrimFloat.add phiRec (PrimFloat.mul TMath_Pi 2)
                else phiRec in
  let etaRec := Eta (recJets ir) in
  [mkFill fh1E ir [E (recJets ir)] eventW;
   mkFill fh1PtRecIn ir [ptRec] eventW;
   mkFill fh3RecEtaPhiPt ir [etaRec; phiRec; ptRec] eventW] ++
  let ig := iGenIndex !!! ir in
  if (0 <=? ig) && (ig <? nGenJets) then
    let ptGen := Pt (genJets (Z.to_nat ig)) in
    [mkFill fh1PtRecOut ir [ptRec] eventW;
     mkFill fh2PtFGen ir [ptRec; ptGen] eventW;
     mkFill fh3PtRecGenHard ir [ptRec; ptGen; ptHard] eventW;
     mkFill fh3PtRecGenHard_NoW ir [ptRec; ptGen; ptHard] 1]
  else [].

(** Body of the loop over generated jets. *)
Definition gen_fills (genJets : nat -> AliAODJet) (iRecIndex : list Z) (eventW : float)
    (ig : nat) : list Fill :=
  let ptGen := Pt (genJets ig) in
  [mkFill fh1PtGenIn ig [ptGen] eventW] ++
  let ir := iRecIndex !!! ig in
  if 0 <=? ir then [mkFill fh1PtGenOut ig [ptGen] eventW] else [].

(** The relating and filling part of [UserExec] on the jet arrays as
    they stand after the copy loops: clamp the counts
    ([TMath::Min(n,kMaxJets)]), initialise the index arrays to [-1], call
    [GetClosestJets], then run the two histogram loops. [nGen] and [nRec]
    are the counts before clamping. The copy of the reconstructed jets that
    precedes it in [UserExec] is added by [exec_from_clamp]. *)
Definition relate_and_fill (genJets recJets : nat -> AliAODJet) (nGen nRec : Z)
    (eventW ptHard : float) : list Fill :=
  let nGenJets' := Z.min nGen (Z.of_nat kMaxJets) in
  let nRecJets' := Z.min nRec (Z.of_nat kMaxJets) in
  let iGenIndex' := replicate kMaxJets (-1) in
  let iRecIndex' := replicate kMaxJets (-1) in
  let '(m, _, _) := GetClosestJets AliAODJet DeltaR kMaxJets
                      (mkMem genJets nGenJets' recJets nRecJets' iGenIndex' iRecIndex') in
  flat_map (rec_fills (ClosestJets.genJets m) (ClosestJets.nGenJets m)
                      (ClosestJets.iGenIndex m) (ClosestJets.recJets m) eventW ptHard)
           (seq 0 (Z.to_nat (ClosestJets.nRecJets m))) ++
  flat_map (gen_fills (ClosestJets.genJets m) (ClosestJets.iRecIndex m) eventW)
           (seq 0 (Z.to_nat (ClosestJets.nGenJets m))).

(** [UserExec] from [nGenJets = TMath::Min(nGenJets,kMaxJets)] to its
    end. [genJets] and [nGen] are the generated jets and their count as
    the code before has left them; [recSlots] and [nRecEntries] are the
    entries of [aodRecJets] and [aodRecJets->GetEntries()]. The array
    [AliAODJet recJets[kMaxJets]] starts default-constructed
    ([inhabitant]); the copy loop fills it, then the jets are related and
    the histograms filled. [None]: the copy loop wrote past the end of
    [recJets]. *)
Definition exec_from_clamp `{Inhabited AliAODJet} (genJets : nat -> AliAODJet) (nGen : Z)
    (recSlots : list (option AliAODJet)) (nRecEntries : Z) (eventW ptHard : float)
    : option (list Fill) :=
  match copy_jets recSlots nRecEntries (replicate kMaxJets inhabitant) with
  | None => None
  | Some recArr =>
      Some (relate_and_fill genJets (fun ir => recArr !!! ir) nGen nRecEntries eventW ptHard)
  end.

(** Number of fills of histogram [h]. *)
Definition count_hist (h : Hist) (l : list Fill) : nat :=
  length (List.filter (fun f => bool_decide (hist f = h)) l).

End Exec.

End JetSpectrumExec.

(** [AliHFAODMCParticleContainer]: MC particles and the acceptance of one
    particle index. *)
Module HFContainer.

(** The fields of [AliAODMCParticle] the filter reads. *)
Record AliAODMCParticle := mkPart {
  PdgCode : Z;
  GetMother : Z;
  IsPrimary : bool;
  GetGeneratorIndex : Z
}.

(** The container's configuration and its particle array [fClArray]. *)
Record Container := mkContainer {
  fSpecialPDG : Z;
  fRejectedOrigin : Z;
  fAcceptedDecay : Z;
  fGeneratorIndex : Z;
  fClArray : list AliAODMCParticle
}.

(** [TClonesArray::At]: [None] is the null pointer returned out of range. *)
Definition At (c : Container) (i : Z) : option AliAODMCParticle :=
  if i <? 0 then None else nth_error (fClArray c) (Z.to_nat i).

(** Both constructors initialise [fSpecialPDG(0)]. *)
Definition default_container (arr : list AliAODMCParticle) : Container :=
  mkContainer 0 0 0 (-1) arr.

(** The [while (pm != 0)] loop of [IsSpecialPDGDaughter], run for at most
    [fuel] iterations. [None]: a null dereference, or a cyclic mother chain
    (more iterations than particles). *)
Fixpoint mother_walk (c : Container) (fuel : nat) (pm : AliAODMCParticle) : option bool :=
  match fuel with
  | O => None
  | S fuel' =>
      let imo := GetMother pm in
      if imo <? 0 then Some false
      else match At c imo with
           | None => None
           | Some pm' =>
               if (Z.abs (PdgCode pm') =? fSpecialPDG c) && IsPrimary pm'
               then Some true
               else mother_walk c fuel' pm'
           end
  end.

Definition IsSpecialPDGDaughter (c : Container) (part : AliAODMCParticle) : option bool :=
  if fSpecialPDG c =? 0 then Some true
  else mother_walk c (S (length (fClArray c))) part.

Section Accept.

(** Collaborators outside this file: the D-meson origin and decay-channel
    classifiers, the kinematic cuts (on the momentum of particle [i]) and
    the base class [AliMCParticleContainer::AcceptMCParticle(i, reason)].
    The last two return the verdict and the updated rejection reason. *)
Variable CheckOrigin : Container -> AliAODMCParticle -> Z.
Variable CheckDecayChannel : Container -> AliAODMCParticle -> Z.
Variable ApplyKinematicCuts : Container -> Z -> Z -> bool * Z.
Variable BaseAcceptMCParticle : Container -> Z -> Z -> bool * Z.
Variable kMCGeneratorCut kHFCut : Z.

(** [AcceptMCParticle(Int_t i)]: the verdict and the final value of the
    local [rejectionReason]; [None] is a null dereference. *)
Definition AcceptMCParticle (c : Container) (i : Z) : option (bool * Z) :=
  let rejectionReason := 0 in
  match At c i with
  | None => None
  | Some part =>
      let partPdgCode := Z.abs (PdgCode part) in
      let isSpecialPdg :=
        negb (fSpecialPDG c =? 0) && (partPdgCode =? fSpecialPDG c) && IsPrimary part in
      if isSpecialPdg then
        let origin := CheckOrigin c part in
        let isSpecialPdg :=
          if negb (Z.land origin (fRejectedOrigin c) =? 0) then false else isSpecialPdg in
        let decayChannel := CheckDecayChannel c part in
        let _isSpecialPdg :=
          if Z.land decayChannel (fAcceptedDecay c) =? 0 then false else isSpecialPdg in
        if (0 <=? fGeneratorIndex c) && negb (fGeneratorIndex c =? GetGeneratorIndex part)
        then Some (false, Z.lor rejectionReason kMCGeneratorCut)
        else Some (ApplyKinematicCuts c i rejectionReason)
      else
        match IsSpecialPDGDaughter c part with
        | None => None
        | Some true => Some (false, kHFCut)
        | Some false => Some (BaseAcceptMCParticle c i rejectionReason)
        end
  end.

End Accept.

(** A D0 and two particles whose mother is the D0. *)
Definition d0_and_daughter : list AliAODMCParticle :=
  [mkPart 421 (-1) true 0; mkPart (-321) 0 false 0; mkPart 211 0 false 0].

(** The [k]-th ancestor along [GetMother] ([Some part] for [k = 0]);
    [None] when a mother index on the way is negative or not an index of
    the array. *)
Fixpoint nth_mother (c : Container) (k : nat) (p : AliAODMCParticle)
    : option AliAODMCParticle :=
  match k with
  | O => Some p
  | S k' =>
      if GetMother p <? 0 then None
      else match At c (GetMother p) with
           | None => None
           | Some q => nth_mother c k' q
           end
  end.

(** The test of the walk: [TMath::Abs(pm->GetPdgCode()) == fSpecialPDG && pm->IsPrimary()]. *)
Definition is_special (c : Container) (p : AliAODMCParticle) : bool :=
  (Z.abs (PdgCode p) =? fSpecialPDG c) && IsPrimary p.

(** A container selecting D0 ([SetSpecialPDG(421)]). *)
Definition d0_container (arr : list AliAODMCParticle) : Container :=
  mkContainer 421 0 0 (-1) arr.

(** A particle recorded as its own mother. *)
Definition self_mother : list AliAODMCParticle := [mkPart 211 0 false 0].

End HFContainer.

(** ** Facts about the matching *)
Module ClosestJetsFacts.
Import ClosestJets.

Arguments passes {AliAODJet}.
Arguments GetClosestJets {AliAODJet}.
Arguments dist_of {AliAODJet}.

Lemma fold_seq_S {A} (f : A -> nat -> A) k a :
  fold_left f (seq 0 (S k)) a = f (fold_left f (seq 0 k) a) k.
Proof. by rewrite seq_S, fold_left_app. Qed.

Lemma reset_length kMaxJets a : length (reset kMaxJets a) = length a.
Proof.
  unfold reset. induction kMaxJets as [|k IH]; [done|].
  rewrite fold_seq_S, length_insert. exact IH.
Qed.

Lemma reset_lookup kMaxJets a i :
  reset kMaxJets a !! i =
  if (i <? kMaxJets)%nat && (i <? length a)%nat then Some (-1) else a !! i.
Proof.
  induction kMaxJets as [|k IH].
  - reflexivity.
  - unfold reset in *. rewrite fold_seq_S, list_lookup_insert.
    pose proof (reset_length k a) as Hl. unfold reset in Hl. rewrite Hl, IH.
    case_decide as Hd.
    + destruct Hd as [-> Hlt].
      destruct (Nat.ltb_spec i (S i)), (Nat.ltb_spec i (length a)); simpl; try lia; done.
    + destruct (Nat.ltb_spec i k), (Nat.ltb_spec i (S k)), (Nat.ltb_spec i (length a));
        simpl; try lia; try done.
Qed.

Lemma reset_full kMaxJets a :
  length a = kMaxJets -> reset kMaxJets a = replicate kMaxJets (-1).
Proof.
  intros Hl. apply list_eq. intros i. rewrite reset_lookup, Hl.
  destruct (Nat.ltb_spec i kMaxJets); simpl.
  - rewrite lookup_replicate_2; [done|lia].
  - rewrite (proj1 (lookup_replicate_None _ _ _)); [|lia]. apply lookup_ge_None_2. lia.
Qed.

(** The inner loops thread the [DeltaR] trace alongside the search. *)
Lemma fwd_inner_fold d ig l p t :
  fold_left (fun (st : (float * Z) * trace) ir =>
               let '(p, t) := st in (scan_step (d ig) p ir, t ++ [(ig, ir)])) l (p, t)
  = (fold_left (scan_step (d ig)) l p, t ++ map (fun ir => (ig, ir)) l).
Proof.
  revert p t. induction l as [|i l IH]; intros p t; simpl.
  - by rewrite app_nil_r.
  - rewrite IH, <- app_assoc. reflexivity.
Qed.

Lemma bwd_inner_fold (d : nat -> nat -> float) ir l p t :
  fold_left (fun (st : (float * Z) * trace) ig =>
               let '(p, t) := st in (scan_step (fun g => d g ir) p ig, t ++ [(ig, ir)])) l (p, t)
  = (fold_left (scan_step (fun g => d g ir)) l p, t ++ map (fun ig => (ig, ir)) l).
Proof.
  revert p t. induction l as [|i l IH]; intros p t; simpl.
  - by rewrite app_nil_r.
  - rewrite IH, <- app_assoc. reflexivity.
Qed.

(** The search keeps its start index or one of the scanned indices. *)
Lemma scan_result f l p :
  snd (fold_left (scan_step f) l p) = snd p \/
  exists i, In i l /\ snd (fold_left (scan_step f) l p) = Z.of_nat i.
Proof.
  revert p. induction l as [|i l IH]; intros [dist idx]; simpl; [by left|].
  destruct (PrimFloat.ltb (f i) dist).
  - destruct (IH (to_single (f i), Z.of_nat i)) as [H|(j & Hj & H)]; simpl in *.
    + right. exists i. auto.
    + right. exists j. auto.
  - destruct (IH (dist, idx)) as [H|(j & Hj & H)]; simpl in *; [by left|].
    right. exists j. auto.
Qed.

Lemma fwd_choice_range d nR ig :
  fwd_choice d nR ig = -1 \/
  (0 <= fwd_choice d nR ig /\ fwd_choice d nR ig < Z.of_nat nR).
Proof.
  unfold fwd_choice. destruct (scan_result (d ig) (seq 0 nR) (maxDist, -1))
    as [H|(i & Hi & H)]; [left; exact H|right].
  apply in_seq in Hi. rewrite H. lia.
Qed.

Lemma bwd_choice_range d nG ir :
  bwd_choice d nG ir = -1 \/
  (0 <= bwd_choice d nG ir /\ bwd_choice d nG ir < Z.of_nat nG).
Proof.
  unfold bwd_choice. destruct (scan_result (fun g => d g ir) (seq 0 nG) (maxDist, -1))
    as [H|(i & Hi & H)]; [left; exact H|right].
  apply in_seq in Hi. rewrite H. lia.
Qed.

Lemma lookup_total_some (l : list Z) i x : l !! i = Some x -> l !!! i = x.
Proof. intros H. rewrite list_lookup_total_alt, H. reflexivity. Qed.

(** The forward pass over the first [k] generated jets. *)
Lemma fwd_pass d nR k rec0 fl0 tr0 :
  (k <= length rec0)%nat ->
  (forall g, (g < k)%nat -> rec0 !! g = Some (-1)) ->
  let '(rec1, fl1, tr1) := fold_left (fwd_body d nR) (seq 0 k) (rec0, fl0, tr0) in
  length rec1 = length rec0 /\
  (forall g, rec1 !! g = if (g <? k)%nat then Some (fwd_choice d nR g) else rec0 !! g) /\
  (forall g r, fl1 g r =
     fl0 g r + (if (g <? k)%nat && (fwd_choice d nR g =? Z.of_nat r) then 1 else 0)) /\
  tr1 = tr0 ++ flat_map (fun ig => map (fun ir => (ig, ir)) (seq 0 nR)) (seq 0 k).
Proof.
  induction k as [|k IH]; intros Hk Hinit.
  - simpl. repeat split; intros; try lia; by rewrite ?app_nil_r.
  - rewrite fold_seq_S.
    destruct (fold_left (fwd_body d nR) (seq 0 k) (rec0, fl0, tr0)) as [[rec1 fl1] tr1].
    destruct IH as (Hl & Hlk & Hfl & Htr); [lia|intros g Hg; apply Hinit; lia|].
    unfold fwd_body. rewrite fwd_inner_fold.
    assert (Hk1 : rec1 !!! k = -1).
    { apply lookup_total_some. rewrite Hlk. destruct (Nat.ltb_spec k k); [lia|].
      apply Hinit. lia. }
    rewrite Hk1.
    pose proof (fwd_choice_range d nR k) as Hrange.
    destruct (fold_left (scan_step (d k)) (seq 0 nR) (maxDist, -1)) as [dist best] eqn:Es.
    assert (Hb : fwd_choice d nR k = best) by (unfold fwd_choice; rewrite Es; reflexivity).
    rewrite Hb in Hrange.
    rewrite list_lookup_total_insert_eq by lia.
    assert (Hlook : forall g, <[k:=best]> rec1 !! g =
               if (g <? S k)%nat then Some (fwd_choice d nR g) else rec0 !! g).
    { intros g. rewrite list_lookup_insert, Hlk. case_decide as Hd.
      - destruct Hd as [-> _]. destruct (Nat.ltb_spec g (S g)); [|lia]. by rewrite Hb.
      - destruct (Nat.ltb_spec g k), (Nat.ltb_spec g (S k)); try lia; try done. }
    assert (Htr' : tr1 ++ map (fun ir => (k, ir)) (seq 0 nR) =
                   tr0 ++ flat_map (fun ig => map (fun ir => (ig, ir)) (seq 0 nR)) (seq 0 (S k))).
    { rewrite Htr, seq_S, flat_map_app. simpl. rewrite app_nil_r, app_assoc. reflexivity. }
    destruct (Z.leb_spec 0 best) as [Hpos|Hneg].
    + repeat split; [rewrite length_insert; lia | exact Hlook | | exact Htr'].
      intros g r. unfold flag_add. rewrite Hfl.
      destruct (Nat.eqb_spec g k) as [->|Hgk].
      * rewrite Hb. destruct (Nat.ltb_spec k k), (Nat.ltb_spec k (S k)); try lia.
        destruct (Nat.eqb_spec r (Z.to_nat best)), (Z.eqb_spec best (Z.of_nat r));
          simpl; lia.
      * destruct (Nat.ltb_spec g k), (Nat.ltb_spec g (S k)); try lia; simpl;
          destruct (fwd_choice d nR g =? Z.of_nat r); lia.
    + repeat split; [rewrite length_insert; lia | exact Hlook | | exact Htr'].
      intros g r. rewrite Hfl.
      destruct (Nat.eqb_spec g k) as [->|Hgk].
      * rewrite Hb. destruct (Nat.ltb_spec k k), (Nat.ltb_spec k (S k)); try lia.
        destruct (Z.eqb_spec best (Z.of_nat r)); simpl; lia.
      * destruct (Nat.ltb_spec g k), (Nat.ltb_spec g (S k)); try lia; simpl;
          destruct (fwd_choice d nR g =? Z.of_nat r); lia.
Qed.

(** The backward pass over the first [k] reconstructed jets. *)
Lemma bwd_pass d nG k gen0 fl0 tr0 :
  (k <= length gen0)%nat ->
  (forall r, (r < k)%nat -> gen0 !! r = Some (-1)) ->
  let '(gen1, fl1, tr1) := fold_left (bwd_body d nG) (seq 0 k) (gen0, fl0, tr0) in
  length gen1 = length gen0 /\
  (forall r, gen1 !! r = if (r <? k)%nat then Some (bwd_choice d nG r) else gen0 !! r) /\
  (forall g r, fl1 g r =
     fl0 g r + (if (r <? k)%nat && (bwd_choice d nG r =? Z.of_nat g) then 2 else 0)) /\
  tr1 = tr0 ++ flat_map (fun ir => map (fun ig => (ig, ir)) (seq 0 nG)) (seq 0 k).
Proof.
  induction k as [|k IH]; intros Hk Hinit.
  - simpl. repeat split; intros; try lia; by rewrite ?app_nil_r.
  - rewrite fold_seq_S.
    destruct (fold_left (bwd_body d nG) (seq 0 k) (gen0, fl0, tr0)) as [[gen1 fl1] tr1].
    destruct IH as (Hl & Hlk & Hfl & Htr); [lia|intros r Hr; apply Hinit; lia|].
    unfold bwd_body. rewrite bwd_inner_fold.
    assert (Hk1 : gen1 !!! k = -1).
    { apply lookup_total_some. rewrite Hlk. destruct (Nat.ltb_spec k k); [lia|].
      apply Hinit. lia. }
    rewrite Hk1.
    pose proof (bwd_choice_range d nG k) as Hrange.
    destruct (fold_left (scan_step (fun g => d g k)) (seq 0 nG) (maxDist, -1))
      as [dist best] eqn:Es.
    assert (Hb : bwd_choice d nG k = best) by (unfold bwd_choice; rewrite Es; reflexivity).
    rewrite Hb in Hrange.
    rewrite list_lookup_total_insert_eq by lia.
    assert (Hlook : forall r, <[k:=best]> gen1 !! r =
               if (r <? S k)%nat then Some (bwd_choice d nG r) else gen0 !! r).
    { intros r. rewrite list_lookup_insert, Hlk. case_decide as Hd.
      - destruct Hd as [-> _]. destruct (Nat.ltb_spec r (S r)); [|lia]. by rewrite Hb.
      - destruct (Nat.ltb_spec r k), (Nat.ltb_spec r (S k)); try lia; try done. }
    assert (Htr' : tr1 ++ map (fun ig => (ig, k)) (seq 0 nG) =
                   tr0 ++ flat_map (fun ir => map (fun ig => (ig, ir)) (seq 0 nG)) (seq 0 (S k))).
    { rewrite Htr, seq_S, flat_map_app. simpl. rewrite app_nil_r, app_assoc. reflexivity. }
    destruct (Z.leb_spec 0 best) as [Hpos|Hneg].
    + repeat split; [rewrite length_insert; lia | exact Hlook | | exact Htr'].
      intros g r. unfold flag_add. rewrite Hfl.
      destruct (Nat.eqb_spec r k) as [->|Hrk].
      * rewrite Hb. destruct (Nat.ltb_spec k k), (Nat.ltb_spec k (S k)); try lia.
        rewrite andb_true_r.
        destruct (Nat.eqb_spec g (Z.to_nat best)), (Z.eqb_spec best (Z.of_nat g));
          simpl; lia.
      * rewrite andb_false_r.
        destruct (Nat.ltb_spec r k), (Nat.ltb_spec r (S k)); try lia; simpl;
          destruct (bwd_choice d nG r =? Z.of_nat g); lia.
    + repeat split; [rewrite length_insert; lia | exact Hlook | | exact Htr'].
      intros g r. rewrite Hfl.
      destruct (Nat.eqb_spec r k) as [->|Hrk].
      * rewrite Hb. destruct (Nat.ltb_spec k k), (Nat.ltb_spec k (S k)); try lia.
        destruct (Z.eqb_spec best (Z.of_nat g)); simpl; lia.
      * destruct (Nat.ltb_spec r k), (Nat.ltb_spec r (S k)); try lia; simpl;
          destruct (bwd_choice d nG r =? Z.of_nat g); lia.
Qed.

Lemma insert_lookup_if (l : list Z) i v x :
  (i < length l)%nat -> <[i:=v]> l !! x = if (x =? i)%nat then Some v else l !! x.
Proof.
  intros Hi. rewrite list_lookup_insert.
  destruct (Nat.eqb_spec x i) as [->|Hx]; case_decide as Hd; try done; try lia.
Qed.

(** One row [ig] of the consensus loop, over its first [k] cells. *)
Lemma cons_row_spec fl ig k gen rec :
  (k <= length gen)%nat -> (ig < length rec)%nat ->
  let '(gen', rec') := fold_left (cons_cell fl ig) (seq 0 k) (gen, rec) in
  length gen' = length gen /\ length rec' = length rec /\
  (forall r, gen' !! r =
     if (r <? k)%nat then Some (if fl ig r =? 3 then Z.of_nat ig else -1) else gen !! r) /\
  (forall g, rec' !! g =
     if (g =? ig)%nat && (0 <? k)%nat
     then Some (if fl ig (k - 1)%nat =? 3 then Z.of_nat (k - 1) else -1)
     else rec !! g).
Proof.
  induction k as [|k IH]; intros Hk Hig.
  - simpl. repeat split; intros; rewrite ?andb_false_r; done.
  - rewrite fold_seq_S.
    destruct (fold_left (cons_cell fl ig) (seq 0 k) (gen, rec)) as [gen1 rec1].
    destruct IH as (Hlg & Hlr & Hg & Hr); [lia|lia|].
    unfold cons_cell.
    assert (HG : forall v x, <[k:=v]> gen1 !! x =
                   if (x =? k)%nat then Some v else gen1 !! x)
      by (intros; apply insert_lookup_if; lia).
    assert (HR : forall v x, <[ig:=v]> rec1 !! x =
                   if (x =? ig)%nat then Some v else rec1 !! x)
      by (intros; apply insert_lookup_if; lia).
    destruct (fl ig k =? 3) eqn:H3;
      (split; [rewrite length_insert; lia|]; split; [rewrite length_insert; lia|];
       split; intros x;
       [ rewrite HG, Hg; destruct (Nat.ltb_spec x (S k)), (Nat.ltb_spec x k);
         destruct (Nat.eqb_spec x k) as [->|]; try lia; rewrite ?H3; reflexivity
       | rewrite HR, Hr; simpl; rewrite Nat.sub_0_r;
         destruct (Nat.eqb_spec x ig) as [->|]; rewrite ?H3; reflexivity ]).
Qed.

(** The consensus loop over the first [n] rows. *)
Lemma cons_spec fl nR n gen rec :
  (1 <= nR)%nat -> (nR <= length gen)%nat -> (n <= length rec)%nat ->
  let '(gen', rec') := fold_left (cons_row fl nR) (seq 0 n) (gen, rec) in
  length gen' = length gen /\ length rec' = length rec /\
  (forall r, gen' !! r =
     if (r <? nR)%nat && (0 <? n)%nat
     then Some (if fl (n - 1)%nat r =? 3 then Z.of_nat (n - 1) else -1)
     else gen !! r) /\
  (forall g, rec' !! g =
     if (g <? n)%nat
     then Some (if fl g (nR - 1)%nat =? 3 then Z.of_nat (nR - 1) else -1)
     else rec !! g).
Proof.
  intros HnR. induction n as [|n IH]; intros Hg Hn.
  - simpl. repeat split; intros; rewrite ?andb_false_r; done.
  - rewrite fold_seq_S.
    destruct (fold_left (cons_row fl nR) (seq 0 n) (gen, rec)) as [gen1 rec1].
    destruct IH as (Hlg & Hlr & Hgen & Hrec); [lia|lia|].
    unfold cons_row.
    pose proof (cons_row_spec fl n nR gen1 rec1) as Hrow.
    destruct (fold_left (cons_cell fl n) (seq 0 nR) (gen1, rec1)) as [gen2 rec2].
    destruct Hrow as (Hlg2 & Hlr2 & Hgen2 & Hrec2); [lia|lia|].
    repeat split; [lia|lia| |].
    + intros r. rewrite Hgen2, Hgen. simpl. rewrite Nat.sub_0_r.
      destruct (Nat.ltb_spec r nR); simpl; [reflexivity|].
      destruct n; reflexivity.
    + intros g. rewrite Hrec2, Hrec.
      destruct (Nat.eqb_spec g n) as [->|Hgn].
      * destruct (Nat.ltb_spec 0 nR), (Nat.ltb_spec n (S n)); try lia. reflexivity.
      * simpl. destruct (Nat.ltb_spec g n), (Nat.ltb_spec g (S n)); try lia; reflexivity.
Qed.

Section Final.

Variable AliAODJet : Type.
Variable DeltaR : AliAODJet -> AliAODJet -> float.
Variable kMaxJets : nat.

Lemma reset_slot (a : list Z) i :
  length a = kMaxJets -> (i < kMaxJets)%nat -> reset kMaxJets a !! i = Some (-1).
Proof. intros Hl Hi. rewrite reset_full by done. apply lookup_replicate_2. done. Qed.

(** State after the forward and backward passes. *)
Lemma passes_spec (m : Mem AliAODJet) :
  well_formed kMaxJets m ->
  let nG := Z.to_nat (nGenJets m) in
  let nR := Z.to_nat (nRecJets m) in
  let d := dist_of DeltaR m in
  let '(gen2, rec1, fl, tr) := passes DeltaR kMaxJets m in
  length gen2 = kMaxJets /\ length rec1 = kMaxJets /\
  (forall r, (r < kMaxJets)%nat ->
     gen2 !! r = Some (if (r <? nR)%nat then bwd_choice d nG r else -1)) /\
  (forall g, (g < kMaxJets)%nat ->
     rec1 !! g = Some (if (g <? nG)%nat then fwd_choice d nR g else -1)) /\
  (forall g r, fl g r =
     (if (g <? nG)%nat && (fwd_choice d nR g =? Z.of_nat r) then 1 else 0) +
     (if (r <? nR)%nat && (bwd_choice d nG r =? Z.of_nat g) then 2 else 0)) /\
  tr = flat_map (fun ig => map (fun ir => (ig, ir)) (seq 0 nR)) (seq 0 nG) ++
       flat_map (fun ir => map (fun ig => (ig, ir)) (seq 0 nG)) (seq 0 nR).
Proof.
  intros (HlG & HlR & HnG & HnR & _). simpl. unfold passes.
  pose proof (fwd_pass (dist_of DeltaR m) (Z.to_nat (nRecJets m)) (Z.to_nat (nGenJets m))
                (reset kMaxJets (iRecIndex m)) flag0 []) as Hf.
  destruct (fold_left _ (seq 0 (Z.to_nat (nGenJets m))) _) as [[rec1 fl1] tr1].
  destruct Hf as (Hl1 & Hrec1 & Hfl1 & Htr1);
    [rewrite reset_length; lia|intros g Hg; apply reset_slot; lia|].
  pose proof (bwd_pass (dist_of DeltaR m) (Z.to_nat (nGenJets m)) (Z.to_nat (nRecJets m))
                (reset kMaxJets (iGenIndex m)) fl1 tr1) as Hb.
  destruct (fold_left _ (seq 0 (Z.to_nat (nRecJets m))) _) as [[gen2 fl2] tr2].
  destruct Hb as (Hl2 & Hgen2 & Hfl2 & Htr2);
    [rewrite reset_length; lia|intros r Hr; apply reset_slot; lia|].
  rewrite reset_length in Hl1, Hl2.
  split; [lia|]. split; [lia|]. split; [|split; [|split]].
  - intros r Hr. rewrite Hgen2. destruct (r <? _)%nat; [done|]. by apply reset_slot.
  - intros g Hg. rewrite Hrec1. destruct (g <? _)%nat; [done|]. by apply reset_slot.
  - intros g r. rewrite Hfl2, Hfl1. unfold flag0. lia.
  - by rewrite Htr2, Htr1.
Qed.

(** Final output of a call with both sequences non-empty. *)
Lemma output_spec (m : Mem AliAODJet) :
  well_formed kMaxJets m -> 1 <= nGenJets m -> 1 <= nRecJets m ->
  let nG := Z.to_nat (nGenJets m) in
  let nR := Z.to_nat (nRecJets m) in
  let '(_, _, fl, _) := passes DeltaR kMaxJets m in
  let '(m', fl', _) := GetClosestJets DeltaR kMaxJets m in
  fl' = fl /\
  length (iGenIndex m') = kMaxJets /\ length (iRecIndex m') = kMaxJets /\
  (forall r, (r < kMaxJets)%nat -> iGenIndex m' !! r =
     Some (if (r <? nR)%nat
           then (if fl (nG - 1)%nat r =? 3 then Z.of_nat (nG - 1) else -1) else -1)) /\
  (forall g, (g < kMaxJets)%nat -> iRecIndex m' !! g =
     Some (if (g <? nG)%nat
           then (if fl g (nR - 1)%nat =? 3 then Z.of_nat (nR - 1) else -1) else -1)).
Proof.
  intros Hwf HG HR. pose proof (passes_spec m Hwf) as Hp. simpl in *.
  destruct Hwf as (HlG & HlR & HnG & HnR & _).
  unfold GetClosestJets.
  destruct (Z.eqb_spec (nRecJets m) 0); [lia|].
  destruct (Z.eqb_spec (nGenJets m) 0); [lia|].
  destruct (passes DeltaR kMaxJets m) as [[[gen2 rec1] fl] tr].
  destruct Hp as (Hl2 & Hl1 & Hgen2 & Hrec1 & _ & _).
  pose proof (cons_spec fl (Z.to_nat (nRecJets m)) (Z.to_nat (nGenJets m)) gen2 rec1) as Hc.
  destruct (fold_left _ _ (gen2, rec1)) as [gen3 rec3].
  destruct Hc as (Hl3 & Hl4 & Hgen3 & Hrec3); [lia|lia|lia|].
  simpl. split; [reflexivity|]. split; [lia|]. split; [lia|]. split.
  - intros r Hr. rewrite Hgen3, Hgen2 by done.
    destruct (Nat.ltb_spec 0 (Z.to_nat (nGenJets m))); [|lia].
    rewrite andb_true_r. destruct (r <? _)%nat; reflexivity.
  - intros g Hg. rewrite Hrec3, Hrec1 by done.
    destruct (g <? _)%nat; reflexivity.
Qed.

(** A flag cell holds 3 exactly when both directions chose each other. *)
Lemma flag_three (m : Mem AliAODJet) g r :
  well_formed kMaxJets m ->
  let d := dist_of DeltaR m in
  let '(_, _, fl, _) := passes DeltaR kMaxJets m in
  fl g r = 3 <->
  (g < Z.to_nat (nGenJets m))%nat /\ (r < Z.to_nat (nRecJets m))%nat /\
  fwd_choice d (Z.to_nat (nRecJets m)) g = Z.of_nat r /\
  bwd_choice d (Z.to_nat (nGenJets m)) r = Z.of_nat g.
Proof.
  intros Hwf. pose proof (passes_spec m Hwf) as Hp. simpl in *.
  destruct (passes DeltaR kMaxJets m) as [[[gen2 rec1] fl] tr].
  destruct Hp as (_ & _ & _ & _ & Hfl & _). rewrite Hfl.
  destruct (Nat.ltb_spec g (Z.to_nat (nGenJets m))),
           (Nat.ltb_spec r (Z.to_nat (nRecJets m))),
           (Z.eqb_spec (fwd_choice (dist_of DeltaR m) (Z.to_nat (nRecJets m)) g) (Z.of_nat r)),
           (Z.eqb_spec (bwd_choice (dist_of DeltaR m) (Z.to_nat (nGenJets m)) r) (Z.of_nat g));
    simpl; split; intros; try lia; tauto.
Qed.

(** A call with an empty sequence returns right after the reset. *)
Lemma empty_call (m : Mem AliAODJet) :
  length (iGenIndex m) = kMaxJets -> length (iRecIndex m) = kMaxJets ->
  nGenJets m = 0 \/ nRecJets m = 0 ->
  GetClosestJets DeltaR kMaxJets m =
  (mkMem (genJets m) (nGenJets m) (recJets m) (nRecJets m)
         (replicate kMaxJets (-1)) (replicate kMaxJets (-1)), flag0, []).
Proof.
  intros HlG HlR Hz. unfold GetClosestJets. rewrite !reset_full by done.
  destruct (Z.eqb_spec (nRecJets m) 0); [reflexivity|].
  destruct (Z.eqb_spec (nGenJets m) 0); [reflexivity|lia].
Qed.

Lemma replicate_lookup_val n (x : Z) i v : replicate n x !! i = Some v -> v = x.
Proof. intros H. by apply lookup_replicate in H as [-> _]. Qed.

End Final.

End ClosestJetsFacts.

(** ** Further facts about the matching *)
Module ClosestJetsMore.
Import ClosestJets ClosestJetsFacts.

Lemma scan_nonneg f l p : 0 <= snd p -> 0 <= snd (fold_left (scan_step f) l p).
Proof.
  intros H. destruct (scan_result f l p) as [E|(i & _ & E)]; rewrite E; lia.
Qed.

(** The search started from [(maxDist, -1)] keeps [-1] exactly when no
    scanned distance is below [maxDist]. *)
Lemma scan_from_max f l :
  snd (fold_left (scan_step f) l (maxDist, -1)) = -1 <->
  forall i, In i l -> PrimFloat.ltb (f i) maxDist = false.
Proof.
  induction l as [|i l IH]; cbn [fold_left].
  - split; [intros _ i []|reflexivity].
  - unfold scan_step at 2. destruct (PrimFloat.ltb (f i) maxDist) eqn:Hi.
    + split.
      * intros H.
        pose proof (scan_nonneg f l (to_single (f i), Z.of_nat i) ltac:(simpl; lia)).
        lia.
      * intros H. rewrite H in Hi; [discriminate|left; reflexivity].
    + rewrite IH. split.
      * intros H j [<-|Hj]; auto.
      * intros H j Hj. apply H. right. exact Hj.
Qed.

Lemma fwd_choice_none d nR g :
  fwd_choice d nR g = -1 <->
  forall r, (r < nR)%nat -> PrimFloat.ltb (d g r) maxDist = false.
Proof.
  unfold fwd_choice. rewrite scan_from_max. split.
  - intros H r Hr. apply H, in_seq. lia.
  - intros H r Hr. apply in_seq in Hr. apply H. lia.
Qed.

Lemma bwd_choice_none d nG r :
  bwd_choice d nG r = -1 <->
  forall g, (g < nG)%nat -> PrimFloat.ltb (d g r) maxDist = false.
Proof.
  unfold bwd_choice. rewrite scan_from_max. split.
  - intros H g Hg. apply H, in_seq. lia.
  - intros H g Hg. apply in_seq in Hg. apply H. lia.
Qed.

Lemma flat_map_map_nil {A B} (l : list A) :
  flat_map (fun _ : A => @nil B) l = [].
Proof. induction l; simpl; auto. Qed.

Lemma length_pairs (a b : nat) :
  length (flat_map (fun i => map (fun j => (i, j)) (seq 0 b)) (seq 0 a)) = (a * b)%nat.
Proof.
  induction a as [|a IH]; [reflexivity|].
  rewrite seq_S, flat_map_app, length_app, IH. simpl.
  rewrite app_nil_r, length_map, length_seq. lia.
Qed.

Lemma length_pairs_swap (a b : nat) :
  length (flat_map (fun j => map (fun i => (i, j)) (seq 0 a)) (seq 0 b)) = (a * b)%nat.
Proof.
  induction b as [|b IH]; [simpl; lia|].
  rewrite seq_S, flat_map_app, length_app, IH. simpl.
  rewrite app_nil_r, length_map, length_seq. lia.
Qed.

Section Out.

Variable AliAODJet : Type.
Variable DeltaR : AliAODJet -> AliAODJet -> float.
Variable kMaxJets : nat.

(** Everything a well-formed call returns, the empty cases included. *)
Lemma output_all (m : Mem AliAODJet) :
  well_formed kMaxJets m ->
  let nG := Z.to_nat (nGenJets m) in
  let nR := Z.to_nat (nRecJets m) in
  let d := dist_of DeltaR m in
  let '(m', fl, tr) := GetClosestJets DeltaR kMaxJets m in
  genJets m' = genJets m /\ nGenJets m' = nGenJets m /\
  recJets m' = recJets m /\ nRecJets m' = nRecJets m /\
  length (iGenIndex m') = kMaxJets /\ length (iRecIndex m') = kMaxJets /\
  (forall g r, fl g r =
     (if (g <? nG)%nat && (fwd_choice d nR g =? Z.of_nat r) then 1 else 0) +
     (if (r <? nR)%nat && (bwd_choice d nG r =? Z.of_nat g) then 2 else 0)) /\
  tr = flat_map (fun ig => map (fun ir => (ig, ir)) (seq 0 nR)) (seq 0 nG) ++
       flat_map (fun ir => map (fun ig => (ig, ir)) (seq 0 nG)) (seq 0 nR) /\
  (forall r, (r < kMaxJets)%nat -> iGenIndex m' !! r =
     Some (if (r <? nR)%nat && (0 <? nG)%nat
           then (if fl (nG - 1)%nat r =? 3 then Z.of_nat (nG - 1) else -1) else -1)) /\
  (forall g, (g < kMaxJets)%nat -> iRecIndex m' !! g =
     Some (if (g <? nG)%nat && (0 <? nR)%nat
           then (if fl g (nR - 1)%nat =? 3 then Z.of_nat (nR - 1) else -1) else -1)).
Proof.
  intros Hwf. pose proof Hwf as (HlG & HlR & HnG & HnR & H0G & H0R). simpl.
  destruct (Z.eq_dec (nGenJets m) 0) as [Hz|Hz];
    [|destruct (Z.eq_dec (nRecJets m) 0) as [Hz'|Hz']].
  - rewrite (empty_call AliAODJet DeltaR kMaxJets m HlG HlR (or_introl Hz)). simpl.
    rewrite Hz. simpl. rewrite flat_map_map_nil.
    repeat split; try (rewrite length_replicate; reflexivity).
    + intros g r. unfold flag0.
      destruct (Z.of_nat g) eqn:E; try lia; by rewrite andb_false_r.
    + intros r Hr. rewrite lookup_replicate_2 by lia. by rewrite andb_false_r.
    + intros g Hg. rewrite lookup_replicate_2 by lia. reflexivity.
  - rewrite (empty_call AliAODJet DeltaR kMaxJets m HlG HlR (or_intror Hz')). simpl.
    rewrite Hz'. simpl. rewrite flat_map_map_nil.
    repeat split; try (rewrite length_replicate; reflexivity).
    + intros g r. unfold flag0.
      destruct (Z.of_nat r) eqn:E; try lia; by rewrite andb_false_r.
    + intros r Hr. rewrite lookup_replicate_2 by lia. reflexivity.
    + intros g Hg. rewrite lookup_replicate_2 by lia. by rewrite andb_false_r.
  - assert (HG : 1 <= nGenJets m) by lia. assert (HR : 1 <= nRecJets m) by lia.
    pose proof (output_spec AliAODJet DeltaR kMaxJets m Hwf HG HR) as Ho. simpl in Ho.
    pose proof (passes_spec AliAODJet DeltaR kMaxJets m Hwf) as Hp. simpl in Hp.
    assert (Hf : forall m0 fl0 tr0, GetClosestJets DeltaR kMaxJets m = (m0, fl0, tr0) ->
              genJets m0 = genJets m /\ nGenJets m0 = nGenJets m /\
              recJets m0 = recJets m /\ nRecJets m0 = nRecJets m /\
              snd (passes DeltaR kMaxJets m) = tr0).
    { intros m0 fl0 tr0. unfold GetClosestJets.
      destruct (Z.eqb_spec (nRecJets m) 0); [lia|].
      destruct (Z.eqb_spec (nGenJets m) 0); [lia|].
      destruct (passes DeltaR kMaxJets m) as [[[? ?] ?] ?].
      destruct (fold_left _ _ _) as [? ?]. intros [= <- _ <-]. simpl. auto. }
    destruct (passes DeltaR kMaxJets m) as [[[gen2 rec1] fl] tr] eqn:Ep.
    destruct (GetClosestJets DeltaR kMaxJets m) as [[m' fl'] tr'].
    destruct (Hf m' fl' tr' eq_refl) as (-> & -> & -> & -> & Etr). simpl in Etr. subst tr'.
    destruct Ho as (-> & Hl1 & Hl2 & Hgen & Hrec).
    destruct Hp as (_ & _ & _ & _ & Hfl & Htr).
    assert (Hpos : (0 <? Z.to_nat (nGenJets m))%nat = true /\
                   (0 <? Z.to_nat (nRecJets m))%nat = true)
      by (split; apply Nat.ltb_lt; lia).
    destruct Hpos as [-> ->].
    repeat split; auto.
    + intros r Hr. rewrite Hgen by done. by rewrite andb_true_r.
    + intros g Hg. rewrite Hrec by done. by rewrite andb_true_r.
Qed.

(** The call reads its output arrays only to reset them. *)
Lemma stale_indep (m1 m2 : Mem AliAODJet) :
  genJets m1 = genJets m2 -> nGenJets m1 = nGenJets m2 ->
  recJets m1 = recJets m2 -> nRecJets m1 = nRecJets m2 ->
  length (iGenIndex m1) = kMaxJets -> length (iRecIndex m1) = kMaxJets ->
  length (iGenIndex m2) = kMaxJets -> length (iRecIndex m2) = kMaxJets ->
  GetClosestJets DeltaR kMaxJets m1 = GetClosestJets DeltaR kMaxJets m2.
Proof.
  destruct m1 as [g1 nG1 r1 nR1 ig1 ir1], m2 as [g2 nG2 r2 nR2 ig2 ir2].
  cbn [genJets nGenJets recJets nRecJets iGenIndex iRecIndex].
  intros -> -> -> -> H1 H2 H3 H4.
  unfold GetClosestJets, passes, dist_of.
  cbn [genJets nGenJets recJets nRecJets iGenIndex iRecIndex].
  rewrite (reset_full _ ig1 H1), (reset_full _ ir1 H2),
          (reset_full _ ig2 H3), (reset_full _ ir2 H4).
  reflexivity.
Qed.

(** A slot other than [-1] comes from a flag-3 cell of the last row (for
    [genOf]) or of the last column (for [recOf]). *)
Lemma matched_slot (m : Mem AliAODJet) :
  well_formed kMaxJets m ->
  let nG := Z.to_nat (nGenJets m) in
  let nR := Z.to_nat (nRecJets m) in
  let d := dist_of DeltaR m in
  let '(m', _, _) := GetClosestJets DeltaR kMaxJets m in
  (forall r v, iGenIndex m' !! r = Some v -> v <> -1 ->
     (r < nR)%nat /\ (0 < nG)%nat /\ v = Z.of_nat (nG - 1) /\
     fwd_choice d nR (nG - 1) = Z.of_nat r /\ bwd_choice d nG r = Z.of_nat (nG - 1)) /\
  (forall g v, iRecIndex m' !! g = Some v -> v <> -1 ->
     (g < nG)%nat /\ (0 < nR)%nat /\ v = Z.of_nat (nR - 1) /\
     fwd_choice d nR g = Z.of_nat (nR - 1) /\ bwd_choice d nG (nR - 1) = Z.of_nat g).
Proof.
  intros Hwf. pose proof (output_all m Hwf) as Ho. simpl in *.
  destruct (GetClosestJets DeltaR kMaxJets m) as [[m' fl] tr].
  destruct Ho as (_ & _ & _ & _ & Hl1 & Hl2 & Hfl & _ & Hgen & Hrec).
  split.
  - intros r v Hv Hne. pose proof (lookup_lt_Some _ _ _ Hv) as Hlt.
    rewrite Hgen in Hv by lia.
    destruct (Nat.ltb_spec r (Z.to_nat (nRecJets m))); [|simpl in Hv; congruence].
    destruct (Nat.ltb_spec 0 (Z.to_nat (nGenJets m))); [|simpl in Hv; congruence].
    simpl in Hv. rewrite Hfl in Hv.
    destruct (Nat.ltb_spec (Z.to_nat (nGenJets m) - 1) (Z.to_nat (nGenJets m))); [|lia].
    destruct (Nat.ltb_spec r (Z.to_nat (nRecJets m))); [|lia]. simpl in Hv.
    destruct (Z.eqb_spec (fwd_choice (dist_of DeltaR m) (Z.to_nat (nRecJets m))
                (Z.to_nat (nGenJets m) - 1)) (Z.of_nat r));
    destruct (Z.eqb_spec (bwd_choice (dist_of DeltaR m) (Z.to_nat (nGenJets m)) r)
                (Z.of_nat (Z.to_nat (nGenJets m) - 1))); simpl in Hv;
      try congruence.
    injection Hv as <-. auto.
  - intros g v Hv Hne. pose proof (lookup_lt_Some _ _ _ Hv) as Hlt.
    rewrite Hrec in Hv by lia.
    destruct (Nat.ltb_spec g (Z.to_nat (nGenJets m))); [|simpl in Hv; congruence].
    destruct (Nat.ltb_spec 0 (Z.to_nat (nRecJets m))); [|simpl in Hv; congruence].
    simpl in Hv. rewrite Hfl in Hv.
    destruct (Nat.ltb_spec g (Z.to_nat (nGenJets m))); [|lia].
    destruct (Nat.ltb_spec (Z.to_nat (nRecJets m) - 1) (Z.to_nat (nRecJets m))); [|lia].
    simpl in Hv.
    destruct (Z.eqb_spec (fwd_choice (dist_of DeltaR m) (Z.to_nat (nRecJets m)) g)
                (Z.of_nat (Z.to_nat (nRecJets m) - 1)));
    destruct (Z.eqb_spec (bwd_choice (dist_of DeltaR m) (Z.to_nat (nGenJets m))
                (Z.to_nat (nRecJets m) - 1)) (Z.of_nat g)); simpl in Hv;
      try congruence.
    injection Hv as <-. auto.
Qed.

(** At most one slot of each output array differs from [-1]. *)
Lemma match_unique (m : Mem AliAODJet) :
  well_formed kMaxJets m ->
  let '(m', _, _) := GetClosestJets DeltaR kMaxJets m in
  (forall r1 r2 v1 v2, iGenIndex m' !! r1 = Some v1 -> iGenIndex m' !! r2 = Some v2 ->
     v1 <> -1 -> v2 <> -1 -> r1 = r2) /\
  (forall g1 g2 v1 v2, iRecIndex m' !! g1 = Some v1 -> iRecIndex m' !! g2 = Some v2 ->
     v1 <> -1 -> v2 <> -1 -> g1 = g2).
Proof.
  intros Hwf. pose proof (matched_slot m Hwf) as Hm. simpl in Hm.
  destruct (GetClosestJets DeltaR kMaxJets m) as [[m' fl] tr].
  destruct Hm as [Hg Hr]. split.
  - intros r1 r2 v1 v2 H1 H2 N1 N2.
    destruct (Hg r1 v1 H1 N1) as (_ & _ & _ & E1 & _).
    destruct (Hg r2 v2 H2 N2) as (_ & _ & _ & E2 & _).
    rewrite E1 in E2. by apply Nat2Z.inj.
  - intros g1 g2 v1 v2 H1 H2 N1 N2.
    destruct (Hr g1 v1 H1 N1) as (_ & _ & _ & _ & E1).
    destruct (Hr g2 v2 H2 N2) as (_ & _ & _ & _ & E2).
    rewrite E1 in E2. by apply Nat2Z.inj.
Qed.

End Out.

End ClosestJetsMore.

(** ** The claims about [GetClosestJets] *)
Module JetClaims.
Import ClosestJets ClosestJetsFacts ClosestJetsMore.

Section Generic.

Variable AliAODJet : Type.
Variable DeltaR : AliAODJet -> AliAODJet -> float.
Variable kMaxJets : nat.

(** C2: with both sequences non-empty, [genOf[r]] is [nGenJets-1] when the
    flag cell [(nGenJets-1, r)] holds 3 and [-1] otherwise, and [recOf[g]]
    is [nRecJets-1] when the cell [(g, nRecJets-1)] holds 3 and [-1]
    otherwise: the last cell of the consensus loop touching a slot decides
    it. *)
Theorem last_cell_verdict (m : Mem AliAODJet) :
  well_formed kMaxJets m -> 1 <= nGenJets m -> 1 <= nRecJets m ->
  let '(m', fl, _) := GetClosestJets DeltaR kMaxJets m in
  (forall r, (r < Z.to_nat (nRecJets m))%nat ->
     iGenIndex m' !! r =
     Some (if fl (Z.to_nat (nGenJets m) - 1)%nat r =? 3 then nGenJets m - 1 else -1)) /\
  (forall g, (g < Z.to_nat (nGenJets m))%nat ->
     iRecIndex m' !! g =
     Some (if fl g (Z.to_nat (nRecJets m) - 1)%nat =? 3 then nRecJets m - 1 else -1)).
Proof.
  intros Hwf HG HR.
  pose proof (output_spec AliAODJet DeltaR kMaxJets m Hwf HG HR) as Ho. simpl in Ho.
  destruct (passes DeltaR kMaxJets m) as [[[? ?] fl] ?].
  destruct (GetClosestJets DeltaR kMaxJets m) as [[m' fl'] tr].
  destruct Ho as (-> & _ & _ & Hgen & Hrec).
  destruct Hwf as (_ & _ & HnG & HnR & _).
  split.
  - intros r Hr. rewrite Hgen by lia.
    destruct (Nat.ltb_spec r (Z.to_nat (nRecJets m))); [|lia].
    replace (Z.of_nat (Z.to_nat (nGenJets m) - 1)) with (nGenJets m - 1) by lia.
    reflexivity.
  - intros g Hg. rewrite Hrec by lia.
    destruct (Nat.ltb_spec g (Z.to_nat (nGenJets m))); [|lia].
    replace (Z.of_nat (Z.to_nat (nRecJets m) - 1)) with (nRecJets m - 1) by lia.
    reflexivity.
Qed.

(** C4 (amended): for every sub-grid cell [(g, r)] whose flag is not 3, the
    final output pairs neither [g] with [r] nor [r] with [g]. In a crossed
    configuration (the forward searches of G0 and G1 chose R1 and R0, and
    the backward searches of R1 and R0 did not choose G0 and G1), [recOf[0]]
    and [recOf[1]] end as [-1], and [genOf[0]] and [genOf[1]] hold neither
    G0 nor G1. *)
Theorem non_mutual_cell_unpaired (m : Mem AliAODJet) :
  well_formed kMaxJets m ->
  let nG := Z.to_nat (nGenJets m) in
  let nR := Z.to_nat (nRecJets m) in
  let d := dist_of DeltaR m in
  let '(m', fl, _) := GetClosestJets DeltaR kMaxJets m in
  (forall g r, (g < nG)%nat -> (r < nR)%nat -> fl g r <> 3 ->
     iRecIndex m' !! g <> Some (Z.of_nat r) /\ iGenIndex m' !! r <> Some (Z.of_nat g)) /\
  ((2 <= nG)%nat -> (2 <= nR)%nat ->
   fwd_choice d nR 0 = 1 -> fwd_choice d nR 1 = 0 ->
   bwd_choice d nG 1 <> 0 -> bwd_choice d nG 0 <> 1 ->
   iRecIndex m' !! 0%nat = Some (-1) /\ iRecIndex m' !! 1%nat = Some (-1) /\
   iGenIndex m' !! 0%nat <> Some 0 /\ iGenIndex m' !! 0%nat <> Some 1 /\
   iGenIndex m' !! 1%nat <> Some 0 /\ iGenIndex m' !! 1%nat <> Some 1).
Proof.
  intros Hwf. pose proof (output_all AliAODJet DeltaR kMaxJets m Hwf) as Ho.
  pose proof (matched_slot AliAODJet DeltaR kMaxJets m Hwf) as Hm. simpl in *.
  destruct (GetClosestJets DeltaR kMaxJets m) as [[m' fl] tr].
  destruct Ho as (_ & _ & _ & _ & Hl1 & Hl2 & Hfl & _ & _ & _).
  destruct Hm as [Hgen Hrec].
  pose proof Hwf as (_ & _ & HnG & HnR & _).
  set (nG := Z.to_nat (nGenJets m)) in *. set (nR := Z.to_nat (nRecJets m)) in *.
  set (d := dist_of DeltaR m) in *.
  split.
  - intros g r Hg Hr H3. split; intros Heq.
    + destruct (Hrec g _ Heq ltac:(lia)) as (_ & _ & Hv & Hf & Hb).
      apply Nat2Z.inj in Hv. subst. apply H3. rewrite Hfl.
      rewrite Hf, Hb, !Z.eqb_refl.
      repeat match goal with |- context [(?a <? ?b)%nat] => destruct (Nat.ltb_spec a b) end;
        simpl; lia.
    + destruct (Hgen r _ Heq ltac:(lia)) as (_ & _ & Hv & Hf & Hb).
      apply Nat2Z.inj in Hv. subst. apply H3. rewrite Hfl.
      rewrite Hf, Hb, !Z.eqb_refl.
      repeat match goal with |- context [(?a <? ?b)%nat] => destruct (Nat.ltb_spec a b) end;
        simpl; lia.
  - intros H2G H2R F0 F1 B1 B0.
    assert (Hslot : forall (l : list Z) i, length l = kMaxJets -> (i < kMaxJets)%nat ->
              exists v, l !! i = Some v) by (intros l i Hl Hi; apply lookup_lt_is_Some; lia).
    destruct (Hslot _ 0%nat Hl2 ltac:(lia)) as [a0 Ea0].
    destruct (Hslot _ 1%nat Hl2 ltac:(lia)) as [a1 Ea1].
    split; [|split; [|split; [|split; [|split]]]].
    + rewrite Ea0. f_equal. destruct (Z.eq_dec a0 (-1)) as [|Hne]; [done|].
      destruct (Hrec 0%nat a0 Ea0 Hne) as (_ & _ & _ & Hf & Hb).
      rewrite F0 in Hf. assert (E : (nR - 1 = 1)%nat) by lia. rewrite E in Hb. done.
    + rewrite Ea1. f_equal. destruct (Z.eq_dec a1 (-1)) as [|Hne]; [done|].
      destruct (Hrec 1%nat a1 Ea1 Hne) as (_ & _ & _ & Hf & _).
      rewrite F1 in Hf. lia.
    + intros E. destruct (Hgen 0%nat 0 E ltac:(lia)) as (_ & _ & Hv & _). lia.
    + intros E. destruct (Hgen 0%nat 1 E ltac:(lia)) as (_ & _ & Hv & _ & Hb).
      rewrite <- Hv in Hb. done.
    + intros E. destruct (Hgen 1%nat 0 E ltac:(lia)) as (_ & _ & Hv & _). lia.
    + intros E. destruct (Hgen 1%nat 1 E ltac:(lia)) as (_ & _ & Hv & Hf & _).
      assert (E' : (nG - 1 = 1)%nat) by lia. rewrite E' in Hf. rewrite F1 in Hf. done.
Qed.

(** C5: when either sequence is empty, every slot of both output arrays is
    [-1] and [DeltaR] is never evaluated. *)
Theorem empty_sequence_unmatched (m : Mem AliAODJet) :
  length (iGenIndex m) = kMaxJets -> length (iRecIndex m) = kMaxJets ->
  nGenJets m = 0 \/ nRecJets m = 0 ->
  let '(m', _, tr) := GetClosestJets DeltaR kMaxJets m in
  iGenIndex m' = replicate kMaxJets (-1) /\ iRecIndex m' = replicate kMaxJets (-1) /\
  tr = [].
Proof.
  intros HlG HlR Hz. rewrite (empty_call AliAODJet DeltaR kMaxJets m HlG HlR Hz).
  repeat split.
Qed.

(** C7: the entry loop turns any prior contents of the two output arrays
    into [kMaxJets] slots of [-1], and the slots at or beyond the matching
    count ([genOf] from [nRecJets], [recOf] from [nGenJets]) are still [-1]
    in the final output. *)
Theorem reset_then_tail_unmatched (m : Mem AliAODJet) :
  well_formed kMaxJets m ->
  let '(m', _, _) := GetClosestJets DeltaR kMaxJets m in
  reset kMaxJets (iGenIndex m) = replicate kMaxJets (-1) /\
  reset kMaxJets (iRecIndex m) = replicate kMaxJets (-1) /\
  (forall r, (Z.to_nat (nRecJets m) <= r < kMaxJets)%nat -> iGenIndex m' !! r = Some (-1)) /\
  (forall g, (Z.to_nat (nGenJets m) <= g < kMaxJets)%nat -> iRecIndex m' !! g = Some (-1)).
Proof.
  intros Hwf. pose proof Hwf as (HlG & HlR & HnG & HnR & H0G & H0R).
  rewrite !reset_full by done.
  destruct (Z.eq_dec (nGenJets m) 0) as [Hz|Hz];
    [|destruct (Z.eq_dec (nRecJets m) 0) as [Hz'|Hz']].
  1,2: rewrite (empty_call AliAODJet DeltaR kMaxJets m HlG HlR) by tauto;
       repeat split; intros i Hi; apply lookup_replicate_2; lia.
  assert (HG : 1 <= nGenJets m) by lia. assert (HR : 1 <= nRecJets m) by lia.
  pose proof (output_spec AliAODJet DeltaR kMaxJets m Hwf HG HR) as Ho. simpl in Ho.
  destruct (passes DeltaR kMaxJets m) as [[[? ?] fl] ?].
  destruct (GetClosestJets DeltaR kMaxJets m) as [[m' fl'] tr].
  destruct Ho as (-> & _ & _ & Hgen & Hrec).
  split; [done|]. split; [done|]. split.
  - intros r Hr. rewrite Hgen by lia.
    destruct (Nat.ltb_spec r (Z.to_nat (nRecJets m))); [lia|reflexivity].
  - intros g Hg. rewrite Hrec by lia.
    destruct (Nat.ltb_spec g (Z.to_nat (nGenJets m))); [lia|reflexivity].
Qed.

(** C8: the jet arrays and the two counts are left as they were; only the
    output index arrays are written. *)
Theorem inputs_untouched (m : Mem AliAODJet) :
  let '(m', _, _) := GetClosestJets DeltaR kMaxJets m in
  genJets m' = genJets m /\ nGenJets m' = nGenJets m /\
  recJets m' = recJets m /\ nRecJets m' = nRecJets m.
Proof.
  unfold GetClosestJets.
  destruct (nRecJets m =? 0); [repeat split|].
  destruct (nGenJets m =? 0); [repeat split|].
  destruct (passes DeltaR kMaxJets m) as [[[? ?] ?] ?].
  destruct (fold_left _ _ _) as [? ?].
  repeat split.
Qed.

(** C9: every entry of [genOf] other than [-1] lies in [0, nGenJets), every
    entry of [recOf] other than [-1] lies in [0, nRecJets), and neither
    array holds the same index other than [-1] in two slots. *)
Theorem output_range_injective (m : Mem AliAODJet) :
  well_formed kMaxJets m ->
  let '(m', _, _) := GetClosestJets DeltaR kMaxJets m in
  (forall r v, iGenIndex m' !! r = Some v -> v <> -1 -> 0 <= v < nGenJets m) /\
  (forall g v, iRecIndex m' !! g = Some v -> v <> -1 -> 0 <= v < nRecJets m) /\
  (forall r1 r2 v, iGenIndex m' !! r1 = Some v -> iGenIndex m' !! r2 = Some v ->
     v <> -1 -> r1 = r2) /\
  (forall g1 g2 v, iRecIndex m' !! g1 = Some v -> iRecIndex m' !! g2 = Some v ->
     v <> -1 -> g1 = g2).
Proof.
  intros Hwf. pose proof Hwf as (HlG & HlR & HnG & HnR & H0G & H0R).
  destruct (Z.eq_dec (nGenJets m) 0) as [Hz|Hz];
    [|destruct (Z.eq_dec (nRecJets m) 0) as [Hz'|Hz']].
  1,2: rewrite (empty_call AliAODJet DeltaR kMaxJets m HlG HlR) by tauto; simpl;
       repeat split; intros;
       repeat match goal with
              | H : replicate _ _ !! _ = Some _ |- _ => apply replicate_lookup_val in H
              end; lia.
  assert (HG : 1 <= nGenJets m) by lia. assert (HR : 1 <= nRecJets m) by lia.
  pose proof (output_spec AliAODJet DeltaR kMaxJets m Hwf HG HR) as Ho. simpl in Ho.
  pose proof (fun g r => flag_three AliAODJet DeltaR kMaxJets m g r Hwf) as Hf. simpl in Hf.
  destruct (passes DeltaR kMaxJets m) as [[[? ?] fl] ?].
  destruct (GetClosestJets DeltaR kMaxJets m) as [[m' fl'] tr].
  destruct Ho as (-> & Hl1 & Hl2 & Hgen & Hrec).
  assert (Hgv : forall r v, iGenIndex m' !! r = Some v -> v <> -1 ->
            (r < Z.to_nat (nRecJets m))%nat /\
            fl (Z.to_nat (nGenJets m) - 1)%nat r = 3 /\
            v = Z.of_nat (Z.to_nat (nGenJets m) - 1)).
  { intros r v Hv Hne. pose proof (lookup_lt_Some _ _ _ Hv) as Hlt.
    rewrite Hgen in Hv by lia.
    destruct (Nat.ltb_spec r (Z.to_nat (nRecJets m))); [|simpl in Hv; congruence].
    destruct (Z.eqb_spec (fl (Z.to_nat (nGenJets m) - 1)%nat r) 3); [|congruence].
    injection Hv as <-. auto. }
  assert (Hrv : forall g v, iRecIndex m' !! g = Some v -> v <> -1 ->
            (g < Z.to_nat (nGenJets m))%nat /\
            fl g (Z.to_nat (nRecJets m) - 1)%nat = 3 /\
            v = Z.of_nat (Z.to_nat (nRecJets m) - 1)).
  { intros g v Hv Hne. pose proof (lookup_lt_Some _ _ _ Hv) as Hlt.
    rewrite Hrec in Hv by lia.
    destruct (Nat.ltb_spec g (Z.to_nat (nGenJets m))); [|simpl in Hv; congruence].
    destruct (Z.eqb_spec (fl g (Z.to_nat (nRecJets m) - 1)%nat) 3); [|congruence].
    injection Hv as <-. auto. }
  split; [|split; [|split]].
  - intros r v Hv Hne. destruct (Hgv r v Hv Hne) as (_ & _ & ->). lia.
  - intros g v Hv Hne. destruct (Hrv g v Hv Hne) as (_ & _ & ->). lia.
  - intros r1 r2 v H1 H2 Hne.
    destruct (Hgv r1 v H1 Hne) as (_ & F1 & _). destruct (Hgv r2 v H2 Hne) as (_ & F2 & _).
    apply Hf in F1 as (_ & _ & E1 & _). apply Hf in F2 as (_ & _ & E2 & _).
    rewrite E1 in E2. by apply Nat2Z.inj.
  - intros g1 g2 v H1 H2 Hne.
    destruct (Hrv g1 v H1 Hne) as (_ & F1 & _). destruct (Hrv g2 v H2 Hne) as (_ & F2 & _).
    apply Hf in F1 as (_ & _ & _ & E1). apply Hf in F2 as (_ & _ & _ & E2).
    rewrite E1 in E2. by apply Nat2Z.inj.
Qed.

(** C3 (the code breaks it): with two generated jets and one reconstructed
    jet, [genOf[0]] is never [0], whatever the distances: the cell
    [(1, 0)] is examined last and overwrites the verdict of [(0, 0)]. *)
Theorem two_gen_one_rec_gen0_never_first (m : Mem AliAODJet) :
  well_formed kMaxJets m -> nGenJets m = 2 -> nRecJets m = 1 ->
  let '(m', _, _) := GetClosestJets DeltaR kMaxJets m in
  iGenIndex m' !! 0%nat <> Some 0.
Proof.
  intros Hwf HG HR.
  pose proof (output_spec AliAODJet DeltaR kMaxJets m Hwf ltac:(lia) ltac:(lia)) as Ho.
  simpl in Ho.
  destruct (passes DeltaR kMaxJets m) as [[[? ?] fl] ?].
  destruct (GetClosestJets DeltaR kMaxJets m) as [[m' fl'] tr].
  destruct Ho as (-> & _ & _ & Hgen & _).
  destruct Hwf as (_ & _ & HnG & HnR & _).
  rewrite Hgen by (rewrite HR in HnR; simpl in HnR; lia).
  rewrite HG, HR. simpl.
  destruct (fl 1%nat 0%nat =? 3); discriminate.
Qed.

End Generic.

End JetClaims.

(** ** Concrete runs *)
Module JetRuns.
Import ClosestJets ClosestJetsFacts JetClaims Kinematics Scenarios.

Ltac wf_solve :=
  unfold well_formed; repeat split; vm_compute; try reflexivity; try lia;
  intro; discriminate.

(** C1 (the code breaks it): on the spec's two-generated/one-reconstructed
    scenario the output is not symmetric: [recOf[0] = 0] while
    [genOf[0] = -1]. *)
Theorem asymmetric_output_example :
  let '(m', _, _) := run two_gen_one_rec in
  iRecIndex m' = [0; -1; -1; -1] /\ iGenIndex m' = [-1; -1; -1; -1].
Proof. vm_compute. split; reflexivity. Qed.

Lemma two_gen_one_rec_gen0_never_first_witness :
  well_formed cap two_gen_one_rec /\ nGenJets two_gen_one_rec = 2 /\
  nRecJets two_gen_one_rec = 1 /\
  (let '(m', _, _) := GetClosestJets DeltaR cap two_gen_one_rec in
   iGenIndex m' !! 0%nat <> Some 0).
Proof.
  split; [wf_solve|]. split; [reflexivity|]. split; [reflexivity|].
  apply two_gen_one_rec_gen0_never_first; [wf_solve|reflexivity|reflexivity].
Defined.

(** C4 (counterexample to "all four slots end as -1"): G0's nearest
    reconstructed jet is R1 and G1's is R0, neither is reciprocated, yet
    [genOf[0] = 2], since R0 and a third generated jet G2 are mutually
    nearest. *)
Lemma crossed_with_third_counterexample :
  let d := dist_of DeltaR crossed_with_third in
  fwd_choice d 2 0 = 1 /\ fwd_choice d 2 1 = 0 /\
  bwd_choice d 3 0 <> 1 /\ bwd_choice d 3 1 <> 0 /\
  (let '(m', _, _) := run crossed_with_third in iGenIndex m' !! 0%nat = Some 2).
Proof.
  vm_compute. repeat split; try reflexivity; discriminate.
Qed.

Lemma non_mutual_cell_unpaired_witness :
  well_formed cap crossed_with_third /\
  (let d := dist_of DeltaR crossed_with_third in
   let '(m', fl, _) := GetClosestJets DeltaR cap crossed_with_third in
   (fl 0%nat 1%nat <> 3 /\
    iRecIndex m' !! 0%nat <> Some 1 /\ iGenIndex m' !! 1%nat <> Some 0) /\
   (fwd_choice d 2 0 = 1 /\ fwd_choice d 2 1 = 0 /\
    bwd_choice d 3 1 <> 0 /\ bwd_choice d 3 0 <> 1 /\
    iRecIndex m' !! 0%nat = Some (-1) /\ iRecIndex m' !! 1%nat = Some (-1) /\
    iGenIndex m' !! 0%nat <> Some 0 /\ iGenIndex m' !! 0%nat <> Some 1 /\
    iGenIndex m' !! 1%nat <> Some 0 /\ iGenIndex m' !! 1%nat <> Some 1)).
Proof.
  assert (Hwf : well_formed cap crossed_with_third) by wf_solve.
  split; [exact Hwf|].
  pose proof (non_mutual_cell_unpaired Jet DeltaR cap crossed_with_third Hwf) as H.
  assert (Hc : let d := dist_of DeltaR crossed_with_third in
               fwd_choice d 2 0 = 1 /\ fwd_choice d 2 1 = 0 /\
               bwd_choice d 3 1 = 2 /\ bwd_choice d 3 0 = 2)
    by (vm_compute; repeat split).
  assert (Hf : (let '(_, fl, _) := GetClosestJets DeltaR cap crossed_with_third in
                fl 0%nat 1%nat) = 1) by (vm_compute; reflexivity).
  change (Z.to_nat (nGenJets crossed_with_third)) with 3%nat in H.
  change (Z.to_nat (nRecJets crossed_with_third)) with 2%nat in H.
  cbv zeta in *. destruct Hc as (F0 & F1 & B1 & B0).
  revert H Hf.
  destruct (GetClosestJets DeltaR cap crossed_with_third) as [[m' fl] tr].
  intros [H1 H2] Hf.
  assert (Hn : fl 0%nat 1%nat <> 3) by (rewrite Hf; discriminate).
  split.
  - split; [exact Hn|]. exact (H1 0%nat 1%nat ltac:(lia) ltac:(lia) Hn).
  - repeat split; try assumption; try (rewrite B1 || rewrite B0; discriminate);
      apply H2; try lia; try assumption; rewrite ?B1, ?B0; discriminate.
Defined.

(** C6 (the code breaks it): the running best distance is a [Float_t] while
    [dR] is a [Double_t]. A strictly farther later candidate replaces the
    nearer one; a later candidate at an equal distance replaces the earlier
    one; a candidate at a distance below 1.4 is excluded. *)
Theorem float_t_distance_divergence :
  (let d := dist_of DeltaR farther_second in
   PrimFloat.ltb (d 0%nat 0%nat) (d 0%nat 1%nat) = true /\ fwd_choice d 2 0 = 1) /\
  (let d := dist_of DeltaR tied_pair in
   PrimFloat.eqb (d 0%nat 0%nat) (d 0%nat 1%nat) = true /\ fwd_choice d 2 0 = 1) /\
  (let d := dist_of DeltaR just_below_threshold in
   PrimFloat.ltb (d 0%nat 0%nat) 1.4 = true /\ fwd_choice d 1 0 = -1).
Proof. vm_compute. repeat split; reflexivity. Qed.

Lemma last_cell_verdict_witness :
  well_formed cap two_gen_one_rec /\
  1 <= nGenJets two_gen_one_rec /\ 1 <= nRecJets two_gen_one_rec /\
  (let '(m', fl, _) := GetClosestJets DeltaR cap two_gen_one_rec in
   (forall r, (r < Z.to_nat (nRecJets two_gen_one_rec))%nat ->
      iGenIndex m' !! r =
      Some (if fl (Z.to_nat (nGenJets two_gen_one_rec) - 1)%nat r =? 3
            then nGenJets two_gen_one_rec - 1 else -1)) /\
   (forall g, (g < Z.to_nat (nGenJets two_gen_one_rec))%nat ->
      iRecIndex m' !! g =
      Some (if fl g (Z.to_nat (nRecJets two_gen_one_rec) - 1)%nat =? 3
            then nRecJets two_gen_one_rec - 1 else -1))).
Proof.
  split; [wf_solve|]. split; [vm_compute; intro; discriminate|].
  split; [vm_compute; intro; discriminate|].
  apply last_cell_verdict;
    [wf_solve|vm_compute; intro; discriminate|vm_compute; intro; discriminate].
Defined.

Lemma empty_sequence_unmatched_witness :
  length (iGenIndex no_gen) = cap /\ length (iRecIndex no_gen) = cap /\
  (nGenJets no_gen = 0 \/ nRecJets no_gen = 0) /\
  (let '(m', _, tr) := GetClosestJets DeltaR cap no_gen in
   iGenIndex m' = replicate cap (-1) /\ iRecIndex m' = replicate cap (-1) /\ tr = []).
Proof.
  split; [reflexivity|]. split; [reflexivity|]. split; [left; reflexivity|].
  apply empty_sequence_unmatched; [reflexivity|reflexivity|left; reflexivity].
Defined.

Lemma reset_then_tail_unmatched_witness :
  well_formed cap two_gen_one_rec /\
  (let '(m', _, _) := GetClosestJets DeltaR cap two_gen_one_rec in
   reset cap (iGenIndex two_gen_one_rec) = replicate cap (-1) /\
   reset cap (iRecIndex two_gen_one_rec) = replicate cap (-1) /\
   (forall r, (Z.to_nat (nRecJets two_gen_one_rec) <= r < cap)%nat ->
      iGenIndex m' !! r = Some (-1)) /\
   (forall g, (Z.to_nat (nGenJets two_gen_one_rec) <= g < cap)%nat ->
      iRecIndex m' !! g = Some (-1))).
Proof.
  split; [wf_solve|]. apply reset_then_tail_unmatched. wf_solve.
Defined.

Lemma output_range_injective_witness :
  well_formed cap crossed_with_third /\
  (let '(m', _, _) := GetClosestJets DeltaR cap crossed_with_third in
   (forall r v, iGenIndex m' !! r = Some v -> v <> -1 -> 0 <= v < nGenJets crossed_with_third) /\
   (forall g v, iRecIndex m' !! g = Some v -> v <> -1 -> 0 <= v < nRecJets crossed_with_third) /\
   (forall r1 r2 v, iGenIndex m' !! r1 = Some v -> iGenIndex m' !! r2 = Some v ->
      v <> -1 -> r1 = r2) /\
   (forall g1 g2 v, iRecIndex m' !! g1 = Some v -> iRecIndex m' !! g2 = Some v ->
      v <> -1 -> g1 = g2)).
Proof.
  split; [wf_solve|]. apply output_range_injective. wf_solve.
Defined.

End JetRuns.

(** ** The claim about [AliHFAODMCParticleContainer] *)
Module HFClaims.
Import HFContainer.

Section Generic.

Variable CheckOrigin : Container -> AliAODMCParticle -> Z.
Variable CheckDecayChannel : Container -> AliAODMCParticle -> Z.
Variable ApplyKinematicCuts : Container -> Z -> Z -> bool * Z.
Variable BaseAcceptMCParticle : Container -> Z -> Z -> bool * Z.
Variable kMCGeneratorCut kHFCut : Z.

(** C10: with [fSpecialPDG = 0] (its value after either constructor),
    [IsSpecialPDGDaughter] holds for every particle, so
    [AcceptMCParticle(i)] rejects every particle index of the array, with
    reason [kHFCut]. *)
Theorem zero_special_pdg_rejects_all (c : Container) :
  fSpecialPDG c = 0 ->
  (forall part, IsSpecialPDGDaughter c part = Some true) /\
  (forall i, 0 <= i < Z.of_nat (length (fClArray c)) ->
     AcceptMCParticle CheckOrigin CheckDecayChannel ApplyKinematicCuts
       BaseAcceptMCParticle kMCGeneratorCut kHFCut c i = Some (false, kHFCut)).
Proof.
  intros H0. split.
  - intros part. unfold IsSpecialPDGDaughter. rewrite H0. reflexivity.
  - intros i Hi. unfold AcceptMCParticle, At.
    destruct (Z.ltb_spec i 0); [lia|].
    destruct (nth_error (fClArray c) (Z.to_nat i)) as [part|] eqn:E.
    + rewrite H0. simpl. unfold IsSpecialPDGDaughter. rewrite H0. reflexivity.
    + apply nth_error_None in E. lia.
Qed.

End Generic.

Lemma zero_special_pdg_rejects_all_witness :
  fSpecialPDG (default_container d0_and_daughter) = 0 /\
  (forall part, IsSpecialPDGDaughter (default_container d0_and_daughter) part = Some true) /\
  (forall i, 0 <= i < Z.of_nat (length (fClArray (default_container d0_and_daughter))) ->
     AcceptMCParticle (fun _ _ => 0) (fun _ _ => 0) (fun _ _ r => (true, r))
       (fun _ _ r => (true, r)) 1 8192 (default_container d0_and_daughter) i =
     Some (false, 8192)).
Proof.
  split; [reflexivity|]. apply zero_special_pdg_rejects_all. reflexivity.
Defined.

End HFClaims.

(** ** Further properties of [GetClosestJets] *)
Module JetExtras.
Import ClosestJets ClosestJetsFacts ClosestJetsMore.

Section Generic.

Variable AliAODJet : Type.
Variable DeltaR : AliAODJet -> AliAODJet -> float.
Variable kMaxJets : nat.

(** The flag matrix: cell [(g, r)] holds 1 when the forward search of
    generated jet [g] chose [r], plus 2 when the backward search of
    reconstructed jet [r] chose [g]; cells outside the sub-grid hold 0. *)
Theorem flag_matrix (m : Mem AliAODJet) :
  well_formed kMaxJets m ->
  let nG := Z.to_nat (nGenJets m) in
  let nR := Z.to_nat (nRecJets m) in
  let d := dist_of DeltaR m in
  let '(_, fl, _) := GetClosestJets DeltaR kMaxJets m in
  (forall g r, fl g r =
     (if (g <? nG)%nat && (fwd_choice d nR g =? Z.of_nat r) then 1 else 0) +
     (if (r <? nR)%nat && (bwd_choice d nG r =? Z.of_nat g) then 2 else 0)) /\
  (forall g r, (nG <= g)%nat \/ (nR <= r)%nat -> fl g r = 0).
Proof.
  intros Hwf. pose proof (output_all AliAODJet DeltaR kMaxJets m Hwf) as Ho. simpl in *.
  destruct (GetClosestJets DeltaR kMaxJets m) as [[m' fl] tr].
  destruct Ho as (_ & _ & _ & _ & _ & _ & Hfl & _). split; [exact Hfl|].
  intros g r Hout. rewrite Hfl.
  set (nG := Z.to_nat (nGenJets m)). set (nR := Z.to_nat (nRecJets m)).
  set (d := dist_of DeltaR m).
  pose proof (fwd_choice_range d nR g). pose proof (bwd_choice_range d nG r).
  destruct (Nat.ltb_spec g nG), (Nat.ltb_spec r nR),
           (Z.eqb_spec (fwd_choice d nR g) (Z.of_nat r)),
           (Z.eqb_spec (bwd_choice d nG r) (Z.of_nat g)); simpl; lia.
Qed.

(** [DeltaR] is evaluated exactly [2 * nGenJets * nRecJets] times: first
    every pair in generated-major order, then every pair in
    reconstructed-major order. *)
Theorem deltaR_call_order (m : Mem AliAODJet) :
  well_formed kMaxJets m ->
  let nG := Z.to_nat (nGenJets m) in
  let nR := Z.to_nat (nRecJets m) in
  let '(_, _, tr) := GetClosestJets DeltaR kMaxJets m in
  tr = flat_map (fun ig => map (fun ir => (ig, ir)) (seq 0 nR)) (seq 0 nG) ++
       flat_map (fun ir => map (fun ig => (ig, ir)) (seq 0 nG)) (seq 0 nR) /\
  length tr = (2 * nG * nR)%nat.
Proof.
  intros Hwf. pose proof (output_all AliAODJet DeltaR kMaxJets m Hwf) as Ho. simpl in *.
  destruct (GetClosestJets DeltaR kMaxJets m) as [[m' fl] tr].
  destruct Ho as (_ & _ & _ & _ & _ & _ & _ & Htr & _).
  split; [exact Htr|]. rewrite Htr, length_app, length_pairs, length_pairs_swap. lia.
Qed.

(** The result does not depend on what the two output arrays held before
    the call (given their [kMaxJets] slots); in particular calling again on
    the returned state returns the same result. *)
Theorem result_ignores_prior_indices (m1 m2 : Mem AliAODJet) :
  genJets m1 = genJets m2 -> nGenJets m1 = nGenJets m2 ->
  recJets m1 = recJets m2 -> nRecJets m1 = nRecJets m2 ->
  well_formed kMaxJets m1 ->
  length (iGenIndex m2) = kMaxJets -> length (iRecIndex m2) = kMaxJets ->
  GetClosestJets DeltaR kMaxJets m1 = GetClosestJets DeltaR kMaxJets m2 /\
  (let '(m', _, _) := GetClosestJets DeltaR kMaxJets m1 in
   GetClosestJets DeltaR kMaxJets m' = GetClosestJets DeltaR kMaxJets m1).
Proof.
  intros Hg HnG Hr HnR Hwf HlG2 HlR2.
  pose proof Hwf as (HlG1 & HlR1 & _).
  split; [by apply stale_indep|].
  pose proof (output_all AliAODJet DeltaR kMaxJets m1 Hwf) as Ho. simpl in Ho.
  destruct (GetClosestJets DeltaR kMaxJets m1) as [[m' fl] tr] eqn:E.
  destruct Ho as (Hg' & HnG' & Hr' & HnR' & Hl1 & Hl2 & _).
  rewrite <- E. by apply stale_indep.
Qed.

(** A generated jet with no reconstructed jet at a distance below
    [maxDist] (the [Float_t] value of 1.4) ends unmatched, and so does a
    reconstructed jet with no generated jet below [maxDist]; the forward
    search of a generated jet returns [-1] exactly in that case. *)
Theorem out_of_reach_unmatched (m : Mem AliAODJet) g r :
  well_formed kMaxJets m ->
  let nG := Z.to_nat (nGenJets m) in
  let nR := Z.to_nat (nRecJets m) in
  let d := dist_of DeltaR m in
  let '(m', _, _) := GetClosestJets DeltaR kMaxJets m in
  (fwd_choice d nR g = -1 <->
   forall r', (r' < nR)%nat -> PrimFloat.ltb (d g r') maxDist = false) /\
  ((g < kMaxJets)%nat ->
   (forall r', (r' < nR)%nat -> PrimFloat.ltb (d g r') maxDist = false) ->
   iRecIndex m' !! g = Some (-1)) /\
  ((r < kMaxJets)%nat ->
   (forall g', (g' < nG)%nat -> PrimFloat.ltb (d g' r) maxDist = false) ->
   iGenIndex m' !! r = Some (-1)).
Proof.
  intros Hwf. pose proof (matched_slot AliAODJet DeltaR kMaxJets m Hwf) as Hm.
  pose proof (output_all AliAODJet DeltaR kMaxJets m Hwf) as Ho. simpl in *.
  destruct (GetClosestJets DeltaR kMaxJets m) as [[m' fl] tr].
  destruct Ho as (_ & _ & _ & _ & Hl1 & Hl2 & _).
  destruct Hm as [Hgen Hrec].
  split; [apply fwd_choice_none|]. split.
  - intros Hg Hnone. apply fwd_choice_none in Hnone.
    destruct (iRecIndex m' !! g) as [v|] eqn:Ev;
      [|apply lookup_ge_None_1 in Ev; lia].
    destruct (Z.eq_dec v (-1)) as [->|Hne]; [reflexivity|].
    destruct (Hrec g v Ev Hne) as (_ & _ & _ & Hf & _). lia.
  - intros Hr Hnone. apply bwd_choice_none in Hnone.
    destruct (iGenIndex m' !! r) as [v|] eqn:Ev;
      [|apply lookup_ge_None_1 in Ev; lia].
    destruct (Z.eq_dec v (-1)) as [->|Hne]; [reflexivity|].
    destruct (Hgen r v Ev Hne) as (_ & _ & _ & _ & Hb). lia.
Qed.

(** At most one slot of [genOf] and at most one slot of [recOf] hold a
    jet index: each call reports at most one matched jet on each side. *)
Theorem at_most_one_match (m : Mem AliAODJet) :
  well_formed kMaxJets m ->
  let '(m', _, _) := GetClosestJets DeltaR kMaxJets m in
  (forall r1 r2 v1 v2, iGenIndex m' !! r1 = Some v1 -> iGenIndex m' !! r2 = Some v2 ->
     v1 <> -1 -> v2 <> -1 -> r1 = r2) /\
  (forall g1 g2 v1 v2, iRecIndex m' !! g1 = Some v1 -> iRecIndex m' !! g2 = Some v2 ->
     v1 <> -1 -> v2 <> -1 -> g1 = g2).
Proof. intros Hwf. exact (match_unique AliAODJet DeltaR kMaxJets m Hwf). Qed.

(** The two output arrays agree on a pair [(g, r)] exactly when [g] is the
    last generated jet, [r] the last reconstructed jet, and the two chose
    each other in the forward and backward searches. *)
Theorem both_sides_agree_iff_last (m : Mem AliAODJet) g r :
  well_formed kMaxJets m -> 1 <= nGenJets m -> 1 <= nRecJets m ->
  let nG := Z.to_nat (nGenJets m) in
  let nR := Z.to_nat (nRecJets m) in
  let d := dist_of DeltaR m in
  let '(m', _, _) := GetClosestJets DeltaR kMaxJets m in
  (iGenIndex m' !! r = Some (Z.of_nat g) /\ iRecIndex m' !! g = Some (Z.of_nat r)) <->
  (g = (nG - 1)%nat /\ r = (nR - 1)%nat /\
   fwd_choice d nR g = Z.of_nat r /\ bwd_choice d nG r = Z.of_nat g).
Proof.
  intros Hwf HG HR. pose proof Hwf as (_ & _ & HnG & HnR & _).
  pose proof (matched_slot AliAODJet DeltaR kMaxJets m Hwf) as Hm.
  pose proof (output_all AliAODJet DeltaR kMaxJets m Hwf) as Ho. simpl in *.
  destruct (GetClosestJets DeltaR kMaxJets m) as [[m' fl] tr].
  destruct Ho as (_ & _ & _ & _ & _ & _ & Hfl & _ & Hgen & Hrec).
  destruct Hm as [Hg Hr]. split.
  - intros [H1 H2].
    destruct (Hg r _ H1 ltac:(lia)) as (Hr1 & _ & Eg & Ef & Eb).
    destruct (Hr g _ H2 ltac:(lia)) as (Hg1 & _ & Er & _ & _).
    apply Nat2Z.inj in Eg, Er. subst g r. auto.
  - intros (-> & -> & Ef & Eb).
    assert (H3 : fl (Z.to_nat (nGenJets m) - 1)%nat (Z.to_nat (nRecJets m) - 1)%nat = 3).
    { rewrite Hfl, Ef, Eb, !Z.eqb_refl.
      destruct (Nat.ltb_spec (Z.to_nat (nGenJets m) - 1) (Z.to_nat (nGenJets m))),
               (Nat.ltb_spec (Z.to_nat (nRecJets m) - 1) (Z.to_nat (nRecJets m)));
        simpl; lia. }
    rewrite Hgen, Hrec by lia.
    destruct (Nat.ltb_spec (Z.to_nat (nRecJets m) - 1) (Z.to_nat (nRecJets m))); [|lia].
    destruct (Nat.ltb_spec (Z.to_nat (nGenJets m) - 1) (Z.to_nat (nGenJets m))); [|lia].
    destruct (Nat.ltb_spec 0 (Z.to_nat (nGenJets m))); [|lia].
    destruct (Nat.ltb_spec 0 (Z.to_nat (nRecJets m))); [|lia].
    simpl. rewrite H3. auto.
Qed.

End Generic.

End JetExtras.

(** ** Facts about the caller [UserExec] *)
Module ExecFacts.
Import ClosestJets ClosestJetsFacts ClosestJetsMore JetSpectrumExec.

Lemma copy_prefix {A} (slots : list (option A)) (jets : list A) k :
  match fold_left (copy_step A slots) (seq 0 k) (Some jets) with
  | None => exists ir j, (ir < k)%nat /\ (length jets <= ir)%nat /\ slots !! ir = Some (Some j)
  | Some l => length l = length jets /\
      forall ir j, (ir < k)%nat -> slots !! ir = Some (Some j) -> (ir < length jets)%nat
  end.
Proof.
  induction k as [|k IH].
  - simpl. split; [reflexivity|intros; lia].
  - rewrite fold_seq_S.
    destruct (fold_left (copy_step A slots) (seq 0 k) (Some jets)) as [l|]; simpl.
    + destruct IH as [Hl Hin].
      destruct (slots !! k) as [[j|]|] eqn:Ek; simpl.
      * destruct (Nat.ltb_spec k (length l)).
        -- split; [rewrite length_insert; exact Hl|].
           intros ir j' Hir Hs. destruct (Nat.eq_dec ir k) as [->|]; [lia|].
           apply (Hin ir j'); [lia|exact Hs].
        -- exists k, j. repeat split; [lia|lia|exact Ek].
      * split; [exact Hl|]. intros ir j' Hir Hs.
        destruct (Nat.eq_dec ir k) as [->|]; [congruence|]. apply (Hin ir j'); [lia|exact Hs].
      * split; [exact Hl|]. intros ir j' Hir Hs.
        destruct (Nat.eq_dec ir k) as [->|]; [congruence|]. apply (Hin ir j'); [lia|exact Hs].
    + destruct IH as (ir & j & Hir & Hl & Hs). exists ir, j. repeat split; [lia|lia|exact Hs].
Qed.

Lemma count_app h a b : count_hist h (a ++ b) = (count_hist h a + count_hist h b)%nat.
Proof. unfold count_hist. by rewrite List.filter_app, length_app. Qed.

Lemma count_flat_map_const {A} h (f : A -> list Fill) l k :
  (forall x, In x l -> count_hist h (f x) = k) ->
  count_hist h (flat_map f l) = (k * length l)%nat.
Proof.
  induction l as [|x l IH]; intros Hk; simpl; [unfold count_hist; simpl; lia|].
  rewrite count_app, (Hk x (or_introl eq_refl)), IH; [lia|].
  intros y Hy. apply Hk. right. exact Hy.
Qed.

Lemma count_flat_map_le1 {A} h (f : A -> list Fill) l :
  NoDup l ->
  (forall x, In x l -> (count_hist h (f x) <= 1)%nat) ->
  (forall x y, In x l -> In y l -> count_hist h (f x) <> 0%nat ->
     count_hist h (f y) <> 0%nat -> x = y) ->
  (count_hist h (flat_map f l) <= 1)%nat.
Proof.
  induction l as [|x l IH]; intros Hnd Hle Hu; simpl; [unfold count_hist; simpl; lia|].
  apply NoDup_cons in Hnd as [Hx Hnd].
  rewrite count_app.
  destruct (Nat.eq_dec (count_hist h (f x)) 0%nat) as [E|E].
  - rewrite E. apply IH; [exact Hnd|intros; apply Hle; simpl; auto|].
    intros; apply Hu; simpl; auto.
  - rewrite (count_flat_map_const h f l 0%nat).
    + specialize (Hle x (or_introl eq_refl)). lia.
    + intros y Hy. destruct (Nat.eq_dec (count_hist h (f y)) 0%nat) as [E'|E']; [exact E'|].
      exfalso. assert (x = y) as <- by (apply Hu; simpl; auto).
      apply Hx. by apply list_elem_of_In.
Qed.

Section Fills.

Variable AliAODJet : Type.
Variable DeltaR : AliAODJet -> AliAODJet -> float.
Variable kMaxJets : nat.
Variables Pt E Eta Phi : AliAODJet -> float.

(** Fill counts of the relating and filling part. *)
Lemma relate_and_fill_counts (genJets recJets : nat -> AliAODJet)
    (nGen nRec : Z) (eventW ptHard : float) :
  0 <= nGen -> 0 <= nRec ->
  let fills := relate_and_fill AliAODJet DeltaR kMaxJets Pt E Eta Phi
                 genJets recJets nGen nRec eventW ptHard in
  count_hist fh1PtRecIn fills = Z.to_nat (Z.min nRec (Z.of_nat kMaxJets)) /\
  count_hist fh1PtGenIn fills = Z.to_nat (Z.min nGen (Z.of_nat kMaxJets)) /\
  (count_hist fh1PtRecOut fills <= 1)%nat /\ (count_hist fh2PtFGen fills <= 1)%nat /\
  (count_hist fh3PtRecGenHard fills <= 1)%nat /\ (count_hist fh1PtGenOut fills <= 1)%nat.
Proof.
  intros H0G H0R. unfold relate_and_fill.
  set (m := mkMem genJets (Z.min nGen (Z.of_nat kMaxJets)) recJets
              (Z.min nRec (Z.of_nat kMaxJets)) (replicate kMaxJets (-1))
              (replicate kMaxJets (-1))).
  assert (Hwf : well_formed kMaxJets m).
  { unfold well_formed, m; simpl. rewrite !length_replicate. repeat split; lia. }
  pose proof (output_all AliAODJet DeltaR kMaxJets m Hwf) as Ho.
  pose proof (match_unique AliAODJet DeltaR kMaxJets m Hwf) as Hu. simpl in *.
  destruct (GetClosestJets DeltaR kMaxJets m) as [[m' fl] tr].
  destruct Ho as (-> & -> & -> & -> & Hl1 & Hl2 & _).
  destruct Hu as [HuG HuR]. simpl.
  set (nG := Z.min nGen (Z.of_nat kMaxJets)) in *.
  set (nR := Z.min nRec (Z.of_nat kMaxJets)) in *.
  assert (HnR : (Z.to_nat nR <= kMaxJets)%nat) by lia.
  assert (HnG : (Z.to_nat nG <= kMaxJets)%nat) by lia.
  (* which fills each loop body makes *)
  set (condR := fun ir => (0 <=? iGenIndex m' !!! ir) && (iGenIndex m' !!! ir <? nG)).
  set (condG := fun ig => 0 <=? iRecIndex m' !!! ig).
  assert (HR : forall h ir,
    count_hist h (rec_fills AliAODJet Pt E Eta Phi genJets nG (iGenIndex m') recJets
                    eventW ptHard ir) =
    ((if bool_decide (h = fh1E) then 1 else 0) + (if bool_decide (h = fh1PtRecIn) then 1 else 0) +
     (if bool_decide (h = fh3RecEtaPhiPt) then 1 else 0) +
     (if condR ir then
        (if bool_decide (h = fh1PtRecOut) then 1 else 0) +
        (if bool_decide (h = fh2PtFGen) then 1 else 0) +
        (if bool_decide (h = fh3PtRecGenHard) then 1 else 0) +
        (if bool_decide (h = fh3PtRecGenHard_NoW) then 1 else 0) else 0))%nat).
  { intros h ir. unfold rec_fills, count_hist, condR. cbn zeta.
    destruct ((0 <=? iGenIndex m' !!! ir) && (iGenIndex m' !!! ir <? nG));
      destruct h; reflexivity. }
  assert (HG : forall h ig,
    count_hist h (gen_fills AliAODJet Pt genJets (iRecIndex m') eventW ig) =
    ((if bool_decide (h = fh1PtGenIn) then 1 else 0) +
     (if condG ig then (if bool_decide (h = fh1PtGenOut) then 1 else 0) else 0))%nat).
  { intros h ig. unfold gen_fills, count_hist, condG. cbn zeta.
    destruct (0 <=? iRecIndex m' !!! ig); destruct h; reflexivity. }
  assert (HcR : forall ir, (ir < Z.to_nat nR)%nat -> condR ir = true ->
            exists v, iGenIndex m' !! ir = Some v /\ v <> -1).
  { intros ir Hir Hc. unfold condR in Hc.
    destruct (iGenIndex m' !! ir) as [v|] eqn:Ev; [|apply lookup_ge_None_1 in Ev; lia].
    rewrite (lookup_total_some _ _ _ Ev) in Hc. exists v. split; [done|].
    apply andb_prop in Hc as [Hc _]. apply Z.leb_le in Hc. lia. }
  assert (HcG : forall ig, (ig < Z.to_nat nG)%nat -> condG ig = true ->
            exists v, iRecIndex m' !! ig = Some v /\ v <> -1).
  { intros ig Hig Hc. unfold condG in Hc.
    destruct (iRecIndex m' !! ig) as [v|] eqn:Ev; [|apply lookup_ge_None_1 in Ev; lia].
    rewrite (lookup_total_some _ _ _ Ev) in Hc. exists v. split; [done|].
    apply Z.leb_le in Hc. lia. }
  assert (HuniqR : forall h, (forall ir, count_hist h (rec_fills AliAODJet Pt E Eta Phi genJets nG
                    (iGenIndex m') recJets eventW ptHard ir) = if condR ir then 1 else 0)%nat ->
    (count_hist h (flat_map (rec_fills AliAODJet Pt E Eta Phi genJets nG (iGenIndex m') recJets
                    eventW ptHard) (seq 0 (Z.to_nat nR))) <= 1)%nat).
  { intros h Hh. apply count_flat_map_le1; [apply NoDup_seq| |].
    - intros x _. rewrite Hh. destruct (condR x); lia.
    - intros x y Hx Hy Nx Ny. rewrite Hh in Nx, Ny. apply in_seq in Hx, Hy.
      destruct (condR x) eqn:Cx; [|lia]. destruct (condR y) eqn:Cy; [|lia].
      destruct (HcR x ltac:(lia) Cx) as (v1 & E1 & N1).
      destruct (HcR y ltac:(lia) Cy) as (v2 & E2 & N2).
      exact (HuG x y v1 v2 E1 E2 N1 N2). }
  rewrite !count_app.
  split; [|split; [|split; [|split; [|split]]]].
  - rewrite (count_flat_map_const _ _ _ 1%nat), (count_flat_map_const _ _ _ 0%nat), !length_seq.
    + lia.
    + intros x _. rewrite HG. destruct (condG x); reflexivity.
    + intros x _. rewrite HR. destruct (condR x); reflexivity.
  - rewrite (count_flat_map_const _ _ _ 0%nat), (count_flat_map_const _ _ _ 1%nat), !length_seq.
    + lia.
    + intros x _. rewrite HG. destruct (condG x); reflexivity.
    + intros x _. rewrite HR. destruct (condR x); reflexivity.
  - rewrite (count_flat_map_const _ (gen_fills _ _ _ _ _) _ 0%nat).
    + pose proof (HuniqR fh1PtRecOut ltac:(intros; rewrite HR; destruct (condR ir); reflexivity)).
      lia.
    + intros x _. rewrite HG. destruct (condG x); reflexivity.
  - rewrite (count_flat_map_const _ (gen_fills _ _ _ _ _) _ 0%nat).
    + pose proof (HuniqR fh2PtFGen ltac:(intros; rewrite HR; destruct (condR ir); reflexivity)).
      lia.
    + intros x _. rewrite HG. destruct (condG x); reflexivity.
  - rewrite (count_flat_map_const _ (gen_fills _ _ _ _ _) _ 0%nat).
    + pose proof (HuniqR fh3PtRecGenHard
                    ltac:(intros; rewrite HR; destruct (condR ir); reflexivity)).
      lia.
    + intros x _. rewrite HG. destruct (condG x); reflexivity.
  - rewrite (count_flat_map_const _ (rec_fills _ _ _ _ _ _ _ _ _ _ _) _ 0%nat).
    + assert (count_hist fh1PtGenOut (flat_map (gen_fills AliAODJet Pt genJets (iRecIndex m') eventW)
                (seq 0 (Z.to_nat nG))) <= 1)%nat.
      { apply count_flat_map_le1; [apply NoDup_seq| |].
        - intros x _. rewrite HG. destruct (condG x); simpl; lia.
        - intros x y Hx Hy Nx Ny. rewrite HG in Nx, Ny. apply in_seq in Hx, Hy.
          destruct (condG x) eqn:Cx; [|simpl in Nx; lia].
          destruct (condG y) eqn:Cy; [|simpl in Ny; lia].
          destruct (HcG x ltac:(lia) Cx) as (v1 & E1 & N1).
          destruct (HcG y ltac:(lia) Cy) as (v2 & E2 & N2).
          exact (HuR x y v1 v2 E1 E2 N1 N2). }
      lia.
    + intros x _. rewrite HR. destruct (condR x); reflexivity.
Qed.

End Fills.

End ExecFacts.

(** ** Properties of [UserExec] *)
Module ExecExtras.
Import ClosestJets ClosestJetsFacts ClosestJetsMore JetSpectrumExec ExecFacts.

(** The copy loop writes past the end of the [kMaxJets]-element jet array
    exactly when the branch holds a jet at an index at or beyond the array
    length and below [GetEntries()]: the counts are clamped to [kMaxJets]
    only after the copy. *)
Theorem copy_overflow_iff {A} (slots : list (option A)) (n : Z) (jets : list A) :
  copy_jets A slots n jets = None <->
  exists ir j, (ir < Z.to_nat n)%nat /\ (length jets <= ir)%nat /\ slots !! ir = Some (Some j).
Proof.
  unfold copy_jets. pose proof (copy_prefix slots jets (Z.to_nat n)) as H.
  destruct (fold_left _ _ _) as [l|].
  - destruct H as [_ Hin]. split; [discriminate|].
    intros (ir & j & Hir & Hl & Hs). specialize (Hin ir j Hir Hs). lia.
  - split; [intros _; exact H|reflexivity].
Qed.

Section Fills.

Variable AliAODJet : Type.
Variable DeltaR : AliAODJet -> AliAODJet -> float.
Variable kMaxJets : nat.
Variables Pt E Eta Phi : AliAODJet -> float.
Context `{Inhabited AliAODJet}.

(** From the clamp of [nGenJets] on, [UserExec] either writes past the end
    of [recJets] (exactly when [aodRecJets] holds a jet at an index at or
    beyond [kMaxJets] and below [GetEntries()]), or fills the per-jet input
    histograms [fh1PtRecIn] and [fh1PtGenIn] once per (clamped) jet and the
    matched-jet histograms [fh1PtRecOut], [fh2PtFGen], [fh3PtRecGenHard] and
    [fh1PtGenOut] at most once each. *)
Theorem matched_fills_at_most_one (genJets : nat -> AliAODJet) (nGen : Z)
    (recSlots : list (option AliAODJet)) (nRecEntries : Z) (eventW ptHard : float) :
  0 <= nGen -> 0 <= nRecEntries ->
  match exec_from_clamp AliAODJet DeltaR kMaxJets Pt E Eta Phi
          genJets nGen recSlots nRecEntries eventW ptHard with
  | None => exists ir j, (ir < Z.to_nat nRecEntries)%nat /\ (kMaxJets <= ir)%nat /\
                         recSlots !! ir = Some (Some j)
  | Some fills =>
      (forall ir j, (ir < Z.to_nat nRecEntries)%nat -> recSlots !! ir = Some (Some j) ->
                    (ir < kMaxJets)%nat) /\
      count_hist fh1PtRecIn fills = Z.to_nat (Z.min nRecEntries (Z.of_nat kMaxJets)) /\
      count_hist fh1PtGenIn fills = Z.to_nat (Z.min nGen (Z.of_nat kMaxJets)) /\
      (count_hist fh1PtRecOut fills <= 1)%nat /\ (count_hist fh2PtFGen fills <= 1)%nat /\
      (count_hist fh3PtRecGenHard fills <= 1)%nat /\ (count_hist fh1PtGenOut fills <= 1)%nat
  end.
Proof.
  intros H0G H0R. unfold exec_from_clamp, copy_jets.
  pose proof (copy_prefix recSlots (replicate kMaxJets inhabitant) (Z.to_nat nRecEntries)) as Hc.
  rewrite length_replicate in Hc.
  destruct (fold_left _ _ _) as [recArr|]; [|exact Hc].
  destruct Hc as [_ Hin]. split; [exact Hin|].
  exact (relate_and_fill_counts AliAODJet DeltaR kMaxJets Pt E Eta Phi
           genJets (fun ir => recArr !!! ir) nGen nRecEntries eventW ptHard H0G H0R).
Qed.

End Fills.

End ExecExtras.

(** ** Facts about the mother walk *)
Module HFFacts.
Import HFContainer.

Lemma nth_mother_add c a b p :
  nth_mother c (a + b) p =
  match nth_mother c a p with Some q => nth_mother c b q | None => None end.
Proof.
  revert p. induction a as [|a IH]; intros p; [reflexivity|].
  simpl. destruct (GetMother p <? 0); [reflexivity|].
  destruct (At c (GetMother p)); [apply IH|reflexivity].
Qed.

Lemma walk_true_sound c fuel p :
  mother_walk c fuel p = Some true ->
  exists k q, (1 <= k)%nat /\ nth_mother c k p = Some q /\ is_special c q = true.
Proof.
  revert p. induction fuel as [|fuel IH]; intros p H; [discriminate|].
  simpl in H. destruct (GetMother p <? 0) eqn:Hm; [discriminate|].
  destruct (At c (GetMother p)) as [q|] eqn:Ea; [|discriminate].
  destruct ((Z.abs (PdgCode q) =? fSpecialPDG c) && IsPrimary q) eqn:Hs.
  - exists 1%nat, q. simpl. rewrite Hm, Ea. auto.
  - destruct (IH q H) as (k & q' & Hk & Hn & Hq).
    exists (S k), q'. simpl. rewrite Hm, Ea. auto with lia.
Qed.

Lemma walk_false_sound c fuel p :
  mother_walk c fuel p = Some false ->
  forall k q, (1 <= k)%nat -> nth_mother c k p = Some q -> is_special c q = false.
Proof.
  revert p. induction fuel as [|fuel IH]; intros p H k q Hk Hn; [discriminate|].
  simpl in H. destruct k as [|k]; [lia|]. simpl in Hn.
  destruct (GetMother p <? 0); [discriminate|].
  destruct (At c (GetMother p)) as [p'|]; [|discriminate].
  destruct ((Z.abs (PdgCode p') =? fSpecialPDG c) && IsPrimary p') eqn:Hs;
    [discriminate|].
  destruct k as [|k].
  - simpl in Hn. injection Hn as <-. exact Hs.
  - apply (IH p' H (S k)); [lia|exact Hn].
Qed.

Lemma walk_complete c k fuel p q :
  (1 <= k <= fuel)%nat -> nth_mother c k p = Some q -> is_special c q = true ->
  mother_walk c fuel p = Some true.
Proof.
  revert k p. induction fuel as [|fuel IH]; intros k p Hk Hn Hq; [lia|].
  destruct k as [|k]; [lia|]. simpl in *.
  destruct (GetMother p <? 0); [discriminate|].
  destruct (At c (GetMother p)) as [p'|]; [|discriminate].
  destruct ((Z.abs (PdgCode p') =? fSpecialPDG c) && IsPrimary p') eqn:Hs; [reflexivity|].
  destruct k as [|k].
  - simpl in Hn. injection Hn as <-. unfold is_special in Hq. congruence.
  - apply (IH (S k) p'); [lia|exact Hn|exact Hq].
Qed.

Lemma walk_root c k fuel p root :
  (k < fuel)%nat -> nth_mother c k p = Some root -> GetMother root < 0 ->
  (forall j q, (1 <= j <= k)%nat -> nth_mother c j p = Some q -> is_special c q = false) ->
  mother_walk c fuel p = Some false.
Proof.
  revert k p. induction fuel as [|fuel IH]; intros k p Hk Hn Hr Hns; [lia|].
  simpl. destruct k as [|k].
  - simpl in Hn. injection Hn as ->. destruct (Z.ltb_spec (GetMother root) 0); [done|lia].
  - simpl in Hn. destruct (GetMother p <? 0) eqn:Hm; [discriminate|].
    destruct (At c (GetMother p)) as [p'|] eqn:Ea; [|discriminate].
    assert (Hs : is_special c p' = false).
    { apply (Hns 1%nat); [lia|]. simpl. rewrite Hm, Ea. reflexivity. }
    unfold is_special in Hs. rewrite Hs.
    apply (IH k p'); [lia|exact Hn|exact Hr|].
    intros j q Hj Hq. apply (Hns (S j)); [lia|]. simpl. rewrite Hm, Ea. exact Hq.
Qed.

Lemma walk_endless c p :
  (forall k, exists q, nth_mother c (S k) p = Some q /\ is_special c q = false) ->
  forall fuel, mother_walk c fuel p = None.
Proof.
  intros H fuel. revert p H. induction fuel as [|fuel IH]; intros p H; [reflexivity|].
  destruct (H 0%nat) as (q & Hq & Hs). simpl in Hq |- *.
  destruct (GetMother p <? 0) eqn:Hm; [discriminate|].
  destruct (At c (GetMother p)) as [p'|] eqn:Ea; [|discriminate].
  injection Hq as <-. unfold is_special in Hs. rewrite Hs.
  apply IH. intros k. destruct (H (S k)) as (q & Hq & Hq').
  exists q. split; [|exact Hq']. simpl in Hq. rewrite Hm, Ea in Hq. exact Hq.
Qed.

Lemma cycle_endless c p n :
  (1 <= n)%nat -> nth_mother c n p = Some p ->
  (forall k, (1 <= k <= n)%nat -> exists q, nth_mother c k p = Some q /\ is_special c q = false) ->
  forall k, exists q, nth_mother c (S k) p = Some q /\ is_special c q = false.
Proof.
  intros Hn Hc Hall k. induction k as [k IH] using (well_founded_induction lt_wf).
  destruct (Nat.le_gt_cases (S k) n) as [Hle|Hgt]; [apply Hall; lia|].
  replace (S k) with (n + S (k - n))%nat by lia.
  rewrite nth_mother_add, Hc. apply IH. lia.
Qed.

Section Accept.

Variable CheckOrigin : Container -> AliAODMCParticle -> Z.
Variable CheckDecayChannel : Container -> AliAODMCParticle -> Z.
Variable ApplyKinematicCuts : Container -> Z -> Z -> bool * Z.
Variable BaseAcceptMCParticle : Container -> Z -> Z -> bool * Z.
Variable kMCGeneratorCut kHFCut : Z.

Lemma accept_nonspecial c i part :
  At c i = Some part -> fSpecialPDG c <> 0 -> is_special c part = false ->
  AcceptMCParticle CheckOrigin CheckDecayChannel ApplyKinematicCuts
    BaseAcceptMCParticle kMCGeneratorCut kHFCut c i =
  match IsSpecialPDGDaughter c part with
  | None => None
  | Some true => Some (false, kHFCut)
  | Some false => Some (BaseAcceptMCParticle c i 0)
  end.
Proof.
  intros Ha H0 Hs. unfold AcceptMCParticle. rewrite Ha.
  unfold is_special in Hs.
  destruct (Z.eqb_spec (fSpecialPDG c) 0); [contradiction|]. simpl.
  destruct (Z.abs (PdgCode part) =? fSpecialPDG c), (IsPrimary part);
    try discriminate; reflexivity.
Qed.

End Accept.

(** The mother walk reads only [fSpecialPDG] and [fClArray]. *)
Lemma mother_walk_cfg c c' n p :
  fSpecialPDG c' = fSpecialPDG c -> fClArray c' = fClArray c ->
  mother_walk c' n p = mother_walk c n p.
Proof.
  intros Hs Ha. revert p. induction n as [|n IH]; intros p; [reflexivity|].
  simpl. unfold At. rewrite Hs, Ha.
  destruct (GetMother p <? 0); [reflexivity|].
  destruct (nth_error (fClArray c) _); [|reflexivity].
  destruct (_ && _); [reflexivity|apply IH].
Qed.

Lemma daughter_cfg c c' p :
  fSpecialPDG c' = fSpecialPDG c -> fClArray c' = fClArray c ->
  IsSpecialPDGDaughter c' p = IsSpecialPDGDaughter c p.
Proof.
  intros Hs Ha. unfold IsSpecialPDGDaughter. rewrite Hs, Ha.
  destruct (fSpecialPDG c =? 0); [reflexivity|]. by apply mother_walk_cfg.
Qed.

End HFFacts.

(** ** Properties of [AliHFAODMCParticleContainer] *)
Module HFExtras.
Import HFContainer HFFacts.

Section Generic.

Variable CheckOrigin : Container -> AliAODMCParticle -> Z.
Variable CheckDecayChannel : Container -> AliAODMCParticle -> Z.
Variable ApplyKinematicCuts : Container -> Z -> Z -> bool * Z.
Variable BaseAcceptMCParticle : Container -> Z -> Z -> bool * Z.
Variable kMCGeneratorCut kHFCut : Z.

(** The origin and decay-channel checks never influence the verdict: the
    flag they reset is not read afterwards. For any [CheckOrigin] and
    [CheckDecayChannel], and any values of [fRejectedOrigin] and
    [fAcceptedDecay], [AcceptMCParticle(i)] returns the same, as long as the
    kinematic cuts and the base class (which belong to
    [AliMCParticleContainer] and do not see these two members) do. *)
Theorem origin_and_decay_ignored (CO CD CO' CD' : Container -> AliAODMCParticle -> Z)
    (c : Container) (ro ad : Z) (i : Z) :
  let c' := mkContainer (fSpecialPDG c) ro ad (fGeneratorIndex c) (fClArray c) in
  (forall j r, ApplyKinematicCuts c' j r = ApplyKinematicCuts c j r) ->
  (forall j r, BaseAcceptMCParticle c' j r = BaseAcceptMCParticle c j r) ->
  AcceptMCParticle CO' CD' ApplyKinematicCuts BaseAcceptMCParticle
    kMCGeneratorCut kHFCut c' i =
  AcceptMCParticle CO CD ApplyKinematicCuts BaseAcceptMCParticle
    kMCGeneratorCut kHFCut c i.
Proof.
  intros c' HK HB. unfold AcceptMCParticle.
  assert (HA : At c' i = At c i) by reflexivity. rewrite HA.
  destruct (At c i) as [part|]; [|reflexivity].
  change (fSpecialPDG c') with (fSpecialPDG c).
  change (fGeneratorIndex c') with (fGeneratorIndex c).
  destruct (negb (fSpecialPDG c =? 0) && (Z.abs (PdgCode part) =? fSpecialPDG c) &&
            IsPrimary part); cbn zeta.
  - destruct (_ && _); [reflexivity|]. by rewrite HK.
  - rewrite (daughter_cfg c c' part eq_refl eq_refl).
    destruct (IsSpecialPDGDaughter c part) as [[|]|]; [reflexivity| |reflexivity].
    by rewrite HB.
Qed.

(** A primary particle of the special PDG code is decided by the generator
    cut and the kinematic cuts only: it is rejected with
    [kMCGeneratorCut] when [fGeneratorIndex >= 0] differs from its
    generator index, and is otherwise given the verdict of
    [ApplyKinematicCuts]; its ancestry is never examined. *)
Theorem special_particle_verdict c i part :
  At c i = Some part -> fSpecialPDG c <> 0 -> is_special c part = true ->
  AcceptMCParticle CheckOrigin CheckDecayChannel ApplyKinematicCuts
    BaseAcceptMCParticle kMCGeneratorCut kHFCut c i =
  if (0 <=? fGeneratorIndex c) && negb (fGeneratorIndex c =? GetGeneratorIndex part)
  then Some (false, kMCGeneratorCut)
  else Some (ApplyKinematicCuts c i 0).
Proof.
  intros Ha H0 Hs. unfold AcceptMCParticle. rewrite Ha. unfold is_special in Hs.
  destruct (Z.eqb_spec (fSpecialPDG c) 0); [contradiction|]. simpl.
  rewrite Hs. cbn zeta. reflexivity.
Qed.

(** With a non-zero [fSpecialPDG], [IsSpecialPDGDaughter] answers true
    only if some ancestor along [GetMother] is a primary particle of the
    special code, and answers false only if none is. *)
Theorem daughter_test_sound c part :
  fSpecialPDG c <> 0 ->
  (IsSpecialPDGDaughter c part = Some true ->
   exists k q, (1 <= k)%nat /\ nth_mother c k part = Some q /\ is_special c q = true) /\
  (IsSpecialPDGDaughter c part = Some false ->
   forall k q, (1 <= k)%nat -> nth_mother c k part = Some q -> is_special c q = false).
Proof.
  intros H0. unfold IsSpecialPDGDaughter.
  destruct (Z.eqb_spec (fSpecialPDG c) 0); [contradiction|].
  split; [apply walk_true_sound|apply walk_false_sound].
Qed.

(** A particle that is not itself special but has a primary special
    ancestor, at most one more mother step away than there are particles,
    is rejected with [kHFCut]. *)
Theorem special_ancestor_rejected c i part k q :
  fSpecialPDG c <> 0 -> At c i = Some part -> is_special c part = false ->
  (1 <= k <= S (length (fClArray c)))%nat ->
  nth_mother c k part = Some q -> is_special c q = true ->
  IsSpecialPDGDaughter c part = Some true /\
  AcceptMCParticle CheckOrigin CheckDecayChannel ApplyKinematicCuts
    BaseAcceptMCParticle kMCGeneratorCut kHFCut c i = Some (false, kHFCut).
Proof.
  intros H0 Ha Hs Hk Hn Hq.
  assert (Hd : IsSpecialPDGDaughter c part = Some true).
  { unfold IsSpecialPDGDaughter. destruct (Z.eqb_spec (fSpecialPDG c) 0); [contradiction|].
    exact (walk_complete c k _ part q Hk Hn Hq). }
  split; [exact Hd|]. rewrite (accept_nonspecial _ _ _ _ _ _ c i part Ha H0 Hs), Hd.
  reflexivity.
Qed.

(** A particle that is not itself special, whose mother chain ends (a
    mother index below 0) within as many steps as there are particles with
    no primary special particle on the way, is handed to the base-class
    selection [AliMCParticleContainer::AcceptMCParticle(i, reason)]. *)
Theorem no_special_ancestor_base_verdict c i part k root :
  fSpecialPDG c <> 0 -> At c i = Some part -> is_special c part = false ->
  (k <= length (fClArray c))%nat -> nth_mother c k part = Some root -> GetMother root < 0 ->
  (forall j q, (1 <= j <= k)%nat -> nth_mother c j part = Some q -> is_special c q = false) ->
  IsSpecialPDGDaughter c part = Some false /\
  AcceptMCParticle CheckOrigin CheckDecayChannel ApplyKinematicCuts
    BaseAcceptMCParticle kMCGeneratorCut kHFCut c i = Some (BaseAcceptMCParticle c i 0).
Proof.
  intros H0 Ha Hs Hk Hn Hr Hns.
  assert (Hd : IsSpecialPDGDaughter c part = Some false).
  { unfold IsSpecialPDGDaughter. destruct (Z.eqb_spec (fSpecialPDG c) 0); [contradiction|].
    apply (walk_root c k _ part root); [lia|exact Hn|exact Hr|exact Hns]. }
  split; [exact Hd|]. rewrite (accept_nonspecial _ _ _ _ _ _ c i part Ha H0 Hs), Hd.
  reflexivity.
Qed.

(** A particle on a cycle of the mother links ([n] mother steps lead back
    to it) with no primary special particle on the cycle keeps the
    [while (pm != 0)] loop of [IsSpecialPDGDaughter] running forever: no
    number of iterations ends it. *)
Theorem cyclic_mother_chain_never_ends c part n :
  (1 <= n)%nat -> nth_mother c n part = Some part ->
  (forall k, (1 <= k <= n)%nat -> exists q, nth_mother c k part = Some q /\ is_special c q = false) ->
  forall fuel, mother_walk c fuel part = None.
Proof.
  intros Hn Hc Hall. apply walk_endless. exact (cycle_endless c part n Hn Hc Hall).
Qed.

End Generic.

End HFExtras.

(** ** Concrete instances of the further properties *)
Module ExtraRuns.
Import ClosestJets ClosestJetsFacts Kinematics Scenarios JetExtras.

Ltac wf_check :=
  unfold well_formed; repeat split; vm_compute; try reflexivity; try lia;
  intro; discriminate.

Lemma flag_matrix_witness :
  well_formed cap crossed_with_third /\
  (let nG := Z.to_nat (nGenJets crossed_with_third) in
   let nR := Z.to_nat (nRecJets crossed_with_third) in
   let d := dist_of DeltaR crossed_with_third in
   let '(_, fl, _) := GetClosestJets DeltaR cap crossed_with_third in
   (forall g r, fl g r =
     (if (g <? nG)%nat && (fwd_choice d nR g =? Z.of_nat r) then 1 else 0) +
     (if (r <? nR)%nat && (bwd_choice d nG r =? Z.of_nat g) then 2 else 0)) /\
   (forall g r, (nG <= g)%nat \/ (nR <= r)%nat -> fl g r = 0)).
Proof. split; [wf_check|]. apply flag_matrix. wf_check. Defined.

Lemma deltaR_call_order_witness :
  well_formed cap crossed_with_third /\
  (let nG := Z.to_nat (nGenJets crossed_with_third) in
   let nR := Z.to_nat (nRecJets crossed_with_third) in
   let '(_, _, tr) := GetClosestJets DeltaR cap crossed_with_third in
   tr = flat_map (fun ig => map (fun ir => (ig, ir)) (seq 0 nR)) (seq 0 nG) ++
        flat_map (fun ir => map (fun ig => (ig, ir)) (seq 0 nG)) (seq 0 nR) /\
   length tr = (2 * nG * nR)%nat).
Proof. split; [wf_check|]. apply deltaR_call_order. wf_check. Defined.

Lemma result_ignores_prior_indices_witness :
  genJets two_gen_one_rec = genJets two_gen_one_rec_restaled /\
  nGenJets two_gen_one_rec = nGenJets two_gen_one_rec_restaled /\
  recJets two_gen_one_rec = recJets two_gen_one_rec_restaled /\
  nRecJets two_gen_one_rec = nRecJets two_gen_one_rec_restaled /\
  well_formed cap two_gen_one_rec /\
  length (iGenIndex two_gen_one_rec_restaled) = cap /\
  length (iRecIndex two_gen_one_rec_restaled) = cap /\
  (GetClosestJets DeltaR cap two_gen_one_rec =
   GetClosestJets DeltaR cap two_gen_one_rec_restaled /\
   (let '(m', _, _) := GetClosestJets DeltaR cap two_gen_one_rec in
    GetClosestJets DeltaR cap m' = GetClosestJets DeltaR cap two_gen_one_rec)).
Proof.
  do 4 (split; [reflexivity|]). split; [wf_check|].
  split; [reflexivity|]. split; [reflexivity|].
  apply result_ignores_prior_indices;
    [reflexivity|reflexivity|reflexivity|reflexivity|wf_check|reflexivity|reflexivity].
Defined.

Lemma out_of_reach_unmatched_witness :
  well_formed cap just_below_threshold /\
  (let nG := Z.to_nat (nGenJets just_below_threshold) in
   let nR := Z.to_nat (nRecJets just_below_threshold) in
   let d := dist_of DeltaR just_below_threshold in
   let '(m', _, _) := GetClosestJets DeltaR cap just_below_threshold in
   (fwd_choice d nR 0 = -1 <->
    forall r', (r' < nR)%nat -> PrimFloat.ltb (d 0%nat r') maxDist = false) /\
   ((0 < cap)%nat ->
    (forall r', (r' < nR)%nat -> PrimFloat.ltb (d 0%nat r') maxDist = false) ->
    iRecIndex m' !! 0%nat = Some (-1)) /\
   ((0 < cap)%nat ->
    (forall g', (g' < nG)%nat -> PrimFloat.ltb (d g' 0%nat) maxDist = false) ->
    iGenIndex m' !! 0%nat = Some (-1))).
Proof. split; [wf_check|]. apply (out_of_reach_unmatched _ _ _ _ 0%nat 0%nat). wf_check. Defined.

Lemma at_most_one_match_witness :
  well_formed cap crossed_with_third /\
  (let '(m', _, _) := GetClosestJets DeltaR cap crossed_with_third in
   (forall r1 r2 v1 v2, iGenIndex m' !! r1 = Some v1 -> iGenIndex m' !! r2 = Some v2 ->
      v1 <> -1 -> v2 <> -1 -> r1 = r2) /\
   (forall g1 g2 v1 v2, iRecIndex m' !! g1 = Some v1 -> iRecIndex m' !! g2 = Some v2 ->
      v1 <> -1 -> v2 <> -1 -> g1 = g2)).
Proof. split; [wf_check|]. apply at_most_one_match. wf_check. Defined.

Lemma both_sides_agree_iff_last_witness :
  well_formed cap two_gen_one_rec /\ 1 <= nGenJets two_gen_one_rec /\
  1 <= nRecJets two_gen_one_rec /\
  (let nG := Z.to_nat (nGenJets two_gen_one_rec) in
   let nR := Z.to_nat (nRecJets two_gen_one_rec) in
   let d := dist_of DeltaR two_gen_one_rec in
   let '(m', _, _) := GetClosestJets DeltaR cap two_gen_one_rec in
   (iGenIndex m' !! 0%nat = Some (Z.of_nat 0) /\ iRecIndex m' !! 0%nat = Some (Z.of_nat 0)) <->
   (0%nat = (nG - 1)%nat /\ 0%nat = (nR - 1)%nat /\
    fwd_choice d nR 0 = Z.of_nat 0 /\ bwd_choice d nG 0 = Z.of_nat 0)).
Proof.
  split; [wf_check|]. split; [vm_compute; intro; discriminate|].
  split; [vm_compute; intro; discriminate|].
  apply both_sides_agree_iff_last;
    [wf_check|vm_compute; intro; discriminate|vm_compute; intro; discriminate].
Defined.

End ExtraRuns.

Module ExecRuns.
Import ClosestJets Kinematics Scenarios JetSpectrumExec ExecExtras.

Lemma matched_fills_at_most_one_witness :
  0 <= 2 /\ 0 <= 1 /\
  match exec_from_clamp Jet DeltaR cap Pt Pt Eta Phi
          (jets [mkJet 20 0 0; mkJet 15 0.5 0.5]) 2 [Some (mkJet 19.5 0.02 0.01)] 1 1 0 with
  | None => exists ir j, (ir < Z.to_nat 1)%nat /\ (cap <= ir)%nat /\
                         [Some (mkJet 19.5 0.02 0.01)] !! ir = Some (Some j)
  | Some fills =>
      (forall ir j, (ir < Z.to_nat 1)%nat -> [Some (mkJet 19.5 0.02 0.01)] !! ir = Some (Some j) ->
                    (ir < cap)%nat) /\
      count_hist fh1PtRecIn fills = Z.to_nat (Z.min 1 (Z.of_nat cap)) /\
      count_hist fh1PtGenIn fills = Z.to_nat (Z.min 2 (Z.of_nat cap)) /\
      (count_hist fh1PtRecOut fills <= 1)%nat /\ (count_hist fh2PtFGen fills <= 1)%nat /\
      (count_hist fh3PtRecGenHard fills <= 1)%nat /\ (count_hist fh1PtGenOut fills <= 1)%nat
  end.
Proof.
  split; [lia|]. split; [lia|]. apply matched_fills_at_most_one; lia.
Defined.

End ExecRuns.

Module HFRuns.
Import HFContainer HFExtras.

(** A D0 whose origin the classifier reports as rejected and whose decay
    channel is outside the accepted mask, against a container where both
    masks are 0: the verdict is the same. *)
Lemma origin_and_decay_ignored_witness :
  let c := d0_container d0_and_daughter in
  let c' := mkContainer (fSpecialPDG c) 3 0 (fGeneratorIndex c) (fClArray c) in
  (forall j r, (fun (_ : Container) (_ : Z) (r : Z) => (true, r)) c' j r =
               (fun (_ : Container) (_ : Z) (r : Z) => (true, r)) c j r) /\
  (forall j r, (fun (_ : Container) (_ : Z) (r : Z) => (false, r)) c' j r =
               (fun (_ : Container) (_ : Z) (r : Z) => (false, r)) c j r) /\
  AcceptMCParticle (fun _ _ => 1) (fun _ _ => 4) (fun _ _ r => (true, r))
    (fun _ _ r => (false, r)) 1 8192 c' 0 =
  AcceptMCParticle (fun _ _ => 0) (fun _ _ => 0) (fun _ _ r => (true, r))
    (fun _ _ r => (false, r)) 1 8192 c 0.
Proof.
  cbv zeta. split; [reflexivity|]. split; [reflexivity|].
  apply (origin_and_decay_ignored (fun _ _ r => (true, r)) (fun _ _ r => (false, r)) 1 8192
           (fun _ _ => 0) (fun _ _ => 0) (fun _ _ => 1) (fun _ _ => 4)
           (d0_container d0_and_daughter) 3 0 0); reflexivity.
Defined.

Lemma special_particle_verdict_witness :
  At (d0_container d0_and_daughter) 0 = Some (mkPart 421 (-1) true 0) /\
  fSpecialPDG (d0_container d0_and_daughter) <> 0 /\
  is_special (d0_container d0_and_daughter) (mkPart 421 (-1) true 0) = true /\
  AcceptMCParticle (fun _ _ => 0) (fun _ _ => 0) (fun _ _ r => (true, r))
    (fun _ _ r => (true, r)) 1 8192 (d0_container d0_and_daughter) 0 =
  (if (0 <=? fGeneratorIndex (d0_container d0_and_daughter)) &&
      negb (fGeneratorIndex (d0_container d0_and_daughter) =?
            GetGeneratorIndex (mkPart 421 (-1) true 0))
   then Some (false, 1)
   else Some ((fun _ _ r => (true, r)) (d0_container d0_and_daughter) 0 0)).
Proof.
  split; [reflexivity|]. split; [discriminate|]. split; [reflexivity|].
  apply special_particle_verdict; [reflexivity|discriminate|reflexivity].
Defined.

Lemma daughter_test_sound_witness :
  fSpecialPDG (d0_container d0_and_daughter) <> 0 /\
  (IsSpecialPDGDaughter (d0_container d0_and_daughter) (mkPart (-321) 0 false 0) = Some true ->
   exists k q, (1 <= k)%nat /\
     nth_mother (d0_container d0_and_daughter) k (mkPart (-321) 0 false 0) = Some q /\
     is_special (d0_container d0_and_daughter) q = true) /\
  (IsSpecialPDGDaughter (d0_container d0_and_daughter) (mkPart (-321) 0 false 0) = Some false ->
   forall k q, (1 <= k)%nat ->
     nth_mother (d0_container d0_and_daughter) k (mkPart (-321) 0 false 0) = Some q ->
     is_special (d0_container d0_and_daughter) q = false).
Proof. split; [discriminate|]. apply daughter_test_sound. discriminate. Defined.

Lemma special_ancestor_rejected_witness :
  fSpecialPDG (d0_container d0_and_daughter) <> 0 /\
  At (d0_container d0_and_daughter) 1 = Some (mkPart (-321) 0 false 0) /\
  is_special (d0_container d0_and_daughter) (mkPart (-321) 0 false 0) = false /\
  (1 <= 1 <= S (length (fClArray (d0_container d0_and_daughter))))%nat /\
  nth_mother (d0_container d0_and_daughter) 1 (mkPart (-321) 0 false 0) =
    Some (mkPart 421 (-1) true 0) /\
  is_special (d0_container d0_and_daughter) (mkPart 421 (-1) true 0) = true /\
  (IsSpecialPDGDaughter (d0_container d0_and_daughter) (mkPart (-321) 0 false 0) = Some true /\
   AcceptMCParticle (fun _ _ => 0) (fun _ _ => 0) (fun _ _ r => (true, r))
     (fun _ _ r => (true, r)) 1 8192 (d0_container d0_and_daughter) 1 = Some (false, 8192)).
Proof.
  split; [discriminate|]. split; [reflexivity|]. split; [reflexivity|].
  split; [simpl; lia|]. split; [reflexivity|]. split; [reflexivity|].
  apply (special_ancestor_rejected _ _ _ _ _ _ _ _ _ 1%nat (mkPart 421 (-1) true 0));
    [discriminate|reflexivity|reflexivity|simpl; lia|reflexivity|reflexivity].
Defined.

Lemma no_special_ancestor_base_verdict_witness :
  let c := mkContainer 413 0 0 (-1) d0_and_daughter in
  fSpecialPDG c <> 0 /\ At c 1 = Some (mkPart (-321) 0 false 0) /\
  is_special c (mkPart (-321) 0 false 0) = false /\
  (1 <= length (fClArray c))%nat /\
  nth_mother c 1 (mkPart (-321) 0 false 0) = Some (mkPart 421 (-1) true 0) /\
  GetMother (mkPart 421 (-1) true 0) < 0 /\
  (forall j q, (1 <= j <= 1)%nat -> nth_mother c j (mkPart (-321) 0 false 0) = Some q ->
     is_special c q = false) /\
  (IsSpecialPDGDaughter c (mkPart (-321) 0 false 0) = Some false /\
   AcceptMCParticle (fun _ _ => 0) (fun _ _ => 0) (fun _ _ r => (true, r))
     (fun _ _ r => (true, r)) 1 8192 c 1 = Some ((fun _ _ r => (true, r)) c 1 0)).
Proof.
  intros c.
  assert (Hns : forall j q, (1 <= j <= 1)%nat -> nth_mother c j (mkPart (-321) 0 false 0) = Some q ->
            is_special c q = false).
  { intros j q Hj Hq. assert (j = 1%nat) as -> by lia.
    vm_compute in Hq. injection Hq as <-. reflexivity. }
  split; [discriminate|]. split; [reflexivity|]. split; [reflexivity|].
  split; [simpl; lia|]. split; [reflexivity|]. split; [simpl; lia|].
  split; [exact Hns|].
  apply (no_special_ancestor_base_verdict (fun _ _ => 0) (fun _ _ => 0) (fun _ _ r => (true, r))
           (fun _ _ r => (true, r)) 1 8192 c 1 _ 1%nat (mkPart 421 (-1) true 0));
    [discriminate|reflexivity|reflexivity|simpl; lia|reflexivity|simpl; lia|exact Hns].
Defined.

Lemma cyclic_mother_chain_never_ends_witness :
  (1 <= 1)%nat /\
  nth_mother (d0_container self_mother) 1 (mkPart 211 0 false 0) = Some (mkPart 211 0 false 0) /\
  (forall k, (1 <= k <= 1)%nat -> exists q,
     nth_mother (d0_container self_mother) k (mkPart 211 0 false 0) = Some q /\
     is_special (d0_container self_mother) q = false) /\
  (forall fuel, mother_walk (d0_container self_mother) fuel (mkPart 211 0 false 0) = None).
Proof.
  assert (Hall : forall k, (1 <= k <= 1)%nat -> exists q,
     nth_mother (d0_container self_mother) k (mkPart 211 0 false 0) = Some q /\
     is_special (d0_container self_mother) q = false).
  { intros k Hk. assert (k = 1%nat) as -> by lia.
    exists (mkPart 211 0 false 0). split; reflexivity. }
  split; [lia|]. split; [reflexivity|]. split; [exact Hall|].
  apply (cyclic_mother_chain_never_ends _ _ 1%nat); [lia|reflexivity|exact Hall].
Defined.

End HFRuns.
